(** * native-variants: the variant resolver of [src/lib] ([styled], [createNVA])

    A shallow embedding of the style-variant resolution engine: the cache key
    ([createCacheKey]), the two matchers ([applyVariant], [applyCompound]),
    the slot compositor ([computeSlotStyles]), the util expander
    ([expandUtils] and its three table walkers) and the two resolver
    closures ([computeStyles] of the plain [styled] and of
    [createNVA(...).styled]), followed by the properties of the
    specification that concern them. *)

From Stdlib Require Import Ascii.
From stdpp Require Import gmap strings list sorting pretty.

(** ** JavaScript objects

    A plain object is the list of its own enumerable properties in
    enumeration order, which is the insertion order for names that are not
    array indices, as slot names and style property names are; for the
    others see [defineProperty] and [objectLiteral] below. [oget] is the
    property read [o[k]] ([None] when [k] is not an own property), [oset] the
    assignment [o[k] = v] (in place when the key exists, appended otherwise)
    and [assign] is [Object.assign(target, source)]; the object spread
    [{...a, ...b}] is [assign (assign [] a) b]. *)

Abbreviation obj A := (list (string * A)) (only parsing).

Module JsObject.
Section obj.
Context {A : Type}.
Abbreviation obj := (obj A).

Fixpoint oget (k : string) (o : obj) : option A :=
  match o with
  | [] => None
  | (k', v) :: o' => if decide (k = k') then Some v else oget k o'
  end.

Fixpoint oset (k : string) (v : A) (o : obj) : obj :=
  match o with
  | [] => [(k, v)]
  | (k', v') :: o' =>
      if decide (k = k') then (k, v) :: o' else (k', v') :: oset k v o'
  end.

Definition okeys (o : obj) : list string := o.*1.

Definition assign (target source : obj) : obj :=
  fold_left (fun acc kv => oset kv.1 kv.2 acc) source target.

Definition spread (a : obj) : obj := assign [] a.

Definition spread2 (a b : obj) : obj := assign (spread a) b.

Definition spread3 (a b c : obj) : obj := assign (assign (spread a) b) c.
End obj.
End JsObject.
Export JsObject.

(** ** Values

    A variant selection holds strings, booleans or [undefined]; a style
    property holds a number or a string. The engine never inspects style
    values, it only copies them. *)

Inductive value :=
  | VUndefined
  | VBool (b : bool)
  | VStr (s : string).

Inductive prim :=
  | PNum (n : Z)
  | PStr (s : string).

Global Instance value_eq_dec : EqDecision value.
Proof. solve_decision. Defined.
Global Instance prim_eq_dec : EqDecision prim.
Proof. solve_decision. Defined.

Abbreviation Styles := (obj prim).

(** [String(v)] of JavaScript. *)
Definition toString (v : value) : string :=
  match v with
  | VUndefined => "undefined"
  | VBool true => "true"
  | VBool false => "false"
  | VStr s => s
  end.

(** [v !== undefined] *)
Definition defined (v : value) : bool :=
  match v with VUndefined => false | _ => true end.

(** ** The cache key *)

(** [keys.sort()]: the default comparison orders strings by code unit. *)
Definition sortKeys (keys : list string) : list string :=
  merge_sort String.le keys.

Definition createCacheKey (props : option (obj value)) : string :=
  match props with
  | None => "{}"
  | Some props =>
      let keys := okeys props in
      if decide (length keys = 0) then "{}"
      else
        let keys := sortKeys keys in
        let key :=
          fold_left
            (fun key k =>
               match oget k props with
               | Some v =>
                   if defined v then key +:+ k +:+ ":" +:+ toString v +:+ ";"
                   else key
               | None => key
               end)
            keys EmptyString in
        if decide (key = EmptyString) then "{}" else key
  end.

(** ** The matchers *)

Definition normalizeVariantValue (v : value) : string :=
  match v with
  | VBool b => if b then "true" else "false"
  | _ => toString v
  end.

(** A property that may hold [undefined] is an [option]: [SlotStyles] is
    [{ [slot]?: Styles }], [VariantValues] maps a value key to its slot
    styles, [Variants] a variant name to its values. *)
Abbreviation SlotStyles := (obj (option Styles)).
Abbreviation VariantValues := (obj (option SlotStyles)).
Abbreviation Variants := (obj (option VariantValues)).

(** A compound rule [{ css, ...conditions }]. *)
Record CompoundVariant := {
  css : option SlotStyles;
  conditions : obj value;
}.

(** [o?.[slot]] followed by a truthiness test: an object is truthy,
    [undefined] is not. *)
Definition slotOf (slot : string) (o : option SlotStyles) : option Styles :=
  match o with
  | Some o => match oget slot o with Some (Some s) => Some s | _ => None end
  | None => None
  end.

(** A read of an own property, whose result may be [undefined] either
    because the key is missing or because it holds [undefined]. A read
    [o[k]] of the code also finds what [o] inherits from [Object.prototype];
    [readStyleForValue] below is the read of [applyVariant] with the
    inherited members, and [applyVariantInherited] the matcher with that
    read, which is [applyVariant] unless the value selected names such a
    member. *)
Definition readOpt {A} (k : string) (o : obj (option A)) : option A :=
  match oget k o with Some x => x | None => None end.

Definition applyVariant (slot : string) (variants : Variants)
    (props : obj value) : Styles :=
  fold_left
    (fun style entry =>
       let '(variantKey, variantConfig) := entry in
       match oget variantKey props with
       | None => style
       | Some value =>
           if negb (defined value) then style
           else
             match variantConfig with
             | None => style
             | Some variantConfig =>
                 let normalizedValue := normalizeVariantValue value in
                 match slotOf slot (readOpt normalizedValue variantConfig) with
                 | Some styleForValue => spread2 style styleForValue
                 | None => style
                 end
             end
       end)
    variants [].

(** [props[condKey]], [undefined] when the key is missing. *)
Definition propOf (k : string) (props : obj value) : value :=
  default VUndefined (oget k props).

(** The inner loop of [applyCompound]: [isMatch] after all conditions. *)
Definition isMatch (conditions props : obj value) : bool :=
  forallb
    (fun cond =>
       let '(condKey, condValue) := cond in
       bool_decide
         (normalizeVariantValue condValue
          = normalizeVariantValue (propOf condKey props)))
    conditions.

Definition applyCompound (slot : string)
    (compoundVariants : list CompoundVariant) (props : obj value) : Styles :=
  fold_left
    (fun style cv =>
       if isMatch (conditions cv) props then
         match slotOf slot (css cv) with
         | Some patch => spread2 style patch
         | None => style
         end
       else style)
    compoundVariants [].

Definition computeSlotStyles (slot : string) (base : SlotStyles)
    (variants : Variants) (compoundVariants : list CompoundVariant)
    (props : obj value) : Styles :=
  let baseStyle := default [] (slotOf slot (Some base)) in
  let variantStyle := applyVariant slot variants props in
  let compoundStyle := applyCompound slot compoundVariants props in
  spread3 baseStyle variantStyle compoundStyle.

(** ** Configurations and resolver closures *)

(** [Config<S, V>] and [ConfigWithUtils<S, V, U>]: every field but [slots]
    is optional. A style of a [ConfigWithUtils] may use util names as keys. *)
Record Config := {
  slots : list string;
  base : option SlotStyles;
  variants : option Variants;
  defaultVariants : option (obj value);
  compoundVariants : option (list CompoundVariant);
}.

(** A Resolved Style Set: slot name to merged style. *)
Abbreviation Resolved := (obj Styles).

(** What a [computeStyles] closure captures. [configRef] stands for the
    identity of the fresh object that [styled] allocates as cache handle. *)
Record Closure := {
  frozenSlots : list string;
  cBase : SlotStyles;
  cVariants : Variants;
  cDefaultVariants : obj value;
  frozenCompoundVariants : list CompoundVariant;
  configRef : nat;
}.

(** The heap of result objects (a reference is an index) and the outer cache
    map from [configRef] to that resolver's [Map<string, Base>], whose values
    are references: a cache hit returns the very object stored. The engine
    allocates result objects and never writes to one afterwards. *)
Record Store := {
  objects : list Resolved;
  caches : gmap nat (gmap string nat);
}.

Definition emptyStore : Store := {| objects := []; caches := ∅ |}.

Definition deref (st : Store) (l : nat) : option Resolved := objects st !! l.

(** "Resolve props with defaults". *)
Definition resolveProps (defaults : obj value) (props : option (obj value))
    : obj value :=
  let resolvedProps := spread defaults in
  match props with
  | None => resolvedProps
  | Some props =>
      fold_left
        (fun resolvedProps kv =>
           if defined kv.2 then oset kv.1 kv.2 resolvedProps
           else resolvedProps)
        props resolvedProps
  end.

(** "Compute styles for each slot". *)
Definition computeAllSlots (c : Closure) (resolvedProps : obj value)
    : Resolved :=
  fold_left
    (fun result slot =>
       oset slot
         (computeSlotStyles slot (cBase c) (cVariants c)
            (frozenCompoundVariants c) resolvedProps)
         result)
    (frozenSlots c) [].

(** [configCache?.has(cacheKey)] and [configCache.get(cacheKey)]. *)
Definition cacheLookup (st : Store) (ref : nat) (cacheKey : string)
    : option nat :=
  match caches st !! ref with
  | Some configCache => configCache !! cacheKey
  | None => None
  end.

(** "Store in cache": the result is a new object. *)
Definition cacheStore (st : Store) (ref : nat) (cacheKey : string)
    (result : Resolved) : nat * Store :=
  let l := length (objects st) in
  let configCache := default ∅ (caches st !! ref) in
  (l, {| objects := objects st ++ [result];
         caches := <[ref := <[cacheKey := l]> configCache]> (caches st) |}).

(** *** The plain [styled] *)
Module Plain.

Definition styled (configRef : nat) (config : Config) : Closure :=
  {| frozenSlots := slots config;
     cBase := default [] (base config);
     cVariants := default [] (variants config);
     cDefaultVariants := default [] (defaultVariants config);
     frozenCompoundVariants := default [] (compoundVariants config);
     configRef := configRef |}.

(** The store threaded here is the module-level [styleCache]. *)
Definition computeStyles (c : Closure) (props : option (obj value))
    (st : Store) : nat * Store :=
  let cacheKey := createCacheKey props in
  match cacheLookup st (configRef c) cacheKey with
  | Some cached => (cached, st)
  | None =>
      let resolvedProps := resolveProps (cDefaultVariants c) props in
      let result := computeAllSlots c resolvedProps in
      cacheStore st (configRef c) cacheKey result
  end.

End Plain.

(** ** Util expansion *)

(** [UtilsConfig]: util name to expansion function. [key in utils] is read
    as an own-property test: style keys are style property names or util
    names ([StylesWithUtils<U>]), never names inherited from
    [Object.prototype]. *)
Abbreviation UtilsConfig := (obj (prim -> Styles)).

Definition expandUtils (style : option Styles) (utils : UtilsConfig)
    : Styles :=
  match style with
  | None => []
  | Some style =>
      fold_left
        (fun result kv =>
           let '(key, value) := kv in
           match oget key utils with
           | Some utilFn => assign result (utilFn value)
           | None => oset key value result
           end)
        style []
  end.

(** The loop shared by [expandBaseUtils], the innermost loop of
    [expandVariantsUtils] and the body of [expandCompoundUtils]:
    [for (const slot in o) result[slot] = expandUtils(o[slot], utils)]. *)
Definition expandSlots (o : SlotStyles) (utils : UtilsConfig) : SlotStyles :=
  fold_left
    (fun result kv => oset kv.1 (Some (expandUtils kv.2 utils)) result)
    o [].

Definition expandBaseUtils (base : option SlotStyles) (utils : UtilsConfig)
    : SlotStyles :=
  match base with
  | None => []
  | Some base => expandSlots base utils
  end.

Definition expandVariantsUtils (variants : option Variants)
    (utils : UtilsConfig) : Variants :=
  match variants with
  | None => []
  | Some variants =>
      fold_left
        (fun result entry =>
           match entry.2 with
           | None => result
           | Some variantValues =>
               oset entry.1
                 (Some
                    (fold_left
                       (fun values ventry =>
                          match ventry.2 with
                          | None => values
                          | Some slots =>
                              oset ventry.1 (Some (expandSlots slots utils))
                                values
                          end)
                       variantValues []))
                 result
           end)
        variants []
  end.

Definition expandCompoundUtils (compoundVariants : option (list CompoundVariant))
    (utils : UtilsConfig) : list CompoundVariant :=
  match compoundVariants with
  | None => []
  | Some compoundVariants =>
      map
        (fun cv =>
           let expandedCss :=
             match css cv with
             | Some css => expandSlots css utils
             | None => []
             end in
           {| css := Some expandedCss; conditions := spread (conditions cv) |})
        compoundVariants
  end.

(** *** [createNVA(...).styled] *)

(** The argument of the themed [styled]: a configuration or a function of
    the theme ([defineConfig] is the identity). *)
Inductive ConfigOrFactory (Theme : Type) :=
  | ConfigObject (config : Config)
  | ConfigFactory (factory : Theme -> Config).
Global Arguments ConfigObject {_} _.
Global Arguments ConfigFactory {_} _.

Module NVA.
Section createNVA.
(** The variables of the [createNVA] closure. *)
Context {Theme : Type} (resolvedTheme : Theme) (inputUtils : UtilsConfig).

Definition styled (configRef : nat) (configOrFactory : ConfigOrFactory Theme)
    : Closure :=
  let configWithUtils :=
    match configOrFactory with
    | ConfigFactory factory => factory resolvedTheme
    | ConfigObject config => config
    end in
  let base := expandBaseUtils (base configWithUtils) inputUtils in
  let variants := expandVariantsUtils (variants configWithUtils) inputUtils in
  let compoundVariants :=
    expandCompoundUtils (compoundVariants configWithUtils) inputUtils in
  {| frozenSlots := slots configWithUtils;
     cBase := base;
     cVariants := variants;
     cDefaultVariants := default [] (defaultVariants configWithUtils);
     frozenCompoundVariants := compoundVariants;
     configRef := configRef |}.
End createNVA.

(** The store threaded here is the instance's [instanceCache]. *)
Definition computeStyles (c : Closure) (props : option (obj value))
    (st : Store) : nat * Store :=
  let cacheKey := createCacheKey props in
  match cacheLookup st (configRef c) cacheKey with
  | Some cached => (cached, st)
  | None =>
      let resolvedProps := resolveProps (cDefaultVariants c) props in
      let result := computeAllSlots c resolvedProps in
      cacheStore st (configRef c) cacheKey result
  end.

End NVA.

(** A sequence of calls on one resolver, returning the references handed
    out. *)
Fixpoint runCalls (call : option (obj value) -> Store -> nat * Store)
    (calls : list (option (obj value))) (st : Store) : list nat * Store :=
  match calls with
  | [] => ([], st)
  | props :: calls =>
      let '(l, st) := call props st in
      let '(ls, st) := runCalls call calls st in
      (l :: ls, st)
  end.

(** ** Notions used by the statements *)

(** What the matchers see of a selection: the normalized value of a variant
    name, [None] when the name is missing or holds [undefined]. *)
Definition nget (k : string) (props : obj value) : option string :=
  match oget k props with
  | Some v => if defined v then Some (normalizeVariantValue v) else None
  | None => None
  end.

(** Two selections are the same selection for the engine when they give
    every variant name the same normalized value. *)
Definition sameSelection (p1 p2 : obj value) : Prop :=
  forall k, nget k p1 = nget k p2.

(** The selection passed to a resolver; [undefined] reads as [{}]. *)
Definition propsOf (props : option (obj value)) : obj value :=
  default [] props.

(** An object has distinct keys. *)
Definition wfObj {A} (o : obj A) : Prop := NoDup (okeys o).

Fixpoint noChar (c : ascii) (s : string) : bool :=
  match s with
  | EmptyString => true
  | String c' s' => negb (bool_decide (c = c')) && noChar c s'
  end.

(** No variant name contains [:] and no value contains [;]. *)
Definition sepFree (props : obj value) : bool :=
  forallb (fun kv => noChar ":"%char kv.1 && noChar ";"%char (toString kv.2)) props.

(** The pairs that [createCacheKey] prints, in the order it prints them. *)
Definition printed (props : obj value) : list (string * string) :=
  omap
    (fun k =>
       match oget k props with
       | Some v => if defined v then Some (k, toString v) else None
       | None => None
       end)
    (sortKeys (okeys props)).

(** Printed pairs without separator characters. *)
Definition sepFreePairs (l : list (string * string)) : Prop :=
  Forall (fun kv => noChar ":" kv.1 /\ noChar ";" kv.2) l.

Definition entryStr (kv : string * string) : string :=
  kv.1 +:+ ":" +:+ kv.2 +:+ ";".

Fixpoint concatStr (l : list string) : string :=
  match l with
  | [] => EmptyString
  | s :: l => s +:+ concatStr l
  end.

(** A history of resolver calls on one instance cache: which resolver was
    called with which selection. *)
Fixpoint runHistory (history : list (Closure * option (obj value)))
    (st : Store) : Store :=
  match history with
  | [] => st
  | (c, props) :: history => runHistory history (NVA.computeStyles c props st).2
  end.

(** Every cached reference points to an object. *)
Definition storeWf (st : Store) : Prop :=
  forall ref k l, cacheLookup st ref k = Some l -> l < length (objects st).

(** Every entry of the partition of [c] holds what [c] computes for some
    selection, satisfying [P], that has the entry's key. *)
Definition coherent (P : option (obj value) -> Prop) (c : Closure)
    (st : Store) : Prop :=
  forall k l,
    cacheLookup st (configRef c) k = Some l ->
    exists props,
      P props /\ createCacheKey props = k /\
      deref st l
      = Some (computeAllSlots c (resolveProps (cDefaultVariants c) props)).

(** The calls of a history come from resolvers whose cache handle is theirs
    alone (a handle is a fresh object), with selections satisfying [P]. *)
Definition historyOk (P : option (obj value) -> Prop) (c : Closure)
    (history : list (Closure * option (obj value))) : Prop :=
  Forall
    (fun call => configRef (fst call) = configRef c ->
                 fst call = c /\ P (snd call))
    history.

(** A selection whose keys are distinct, as those of an object are. *)
Definition isObject (props : option (obj value)) : Prop :=
  wfObj (propsOf props).

(** An object selection without separator characters. *)
Definition isPlain (props : option (obj value)) : Prop :=
  wfObj (propsOf props) /\ sepFree (propsOf props).

(** The reading of the cache key as a key of the effective selection: two
    calls have the same key exactly when their effective selections are the
    same. *)
Definition keyOverEffectiveSelection (defaults : obj value) : Prop :=
  forall p1 p2,
    isObject p1 -> isObject p2 ->
    (createCacheKey p1 = createCacheKey p2 <->
     sameSelection (resolveProps defaults p1) (resolveProps defaults p2)).

(** ** Sample configurations *)

(** A button with a [size] variant defaulting to ["sm"]. *)
Definition sizeConfig : Config :=
  {| slots := ["root"];
     base := Some [("root", Some [("padding", PNum 8)])];
     variants :=
       Some [("size",
              Some [("sm", Some [("root", Some [("padding", PNum 4)])]);
                    ("lg", Some [("root", Some [("padding", PNum 16)])])])];
     defaultVariants := Some [("size", VStr "sm")];
     compoundVariants := None |}.

(** Base, a boolean variant and a compound rule on the same property. *)
Definition bigConfig : Config :=
  {| slots := ["root"];
     base := Some [("root", Some [("padding", PNum 8)])];
     variants :=
       Some [("big",
              Some [("true", Some [("root", Some [("padding", PNum 24)])]);
                    ("false", Some [("root", Some [("padding", PNum 2)])])])];
     defaultVariants := None;
     compoundVariants :=
       Some [{| css := Some [("root", Some [("padding", PNum 32)])];
                conditions := [("big", VBool true)] |}] |}.

(** The util [px: v => ({ paddingLeft: v, paddingRight: v })]. *)
Definition pxUtils : UtilsConfig :=
  [("px", fun v => [("paddingLeft", v); ("paddingRight", v)])].


(** ** What one table entry contributes *)

(** The style that one iteration of the loop of [applyVariant] merges, if
    any. *)
Definition variantStyleFor (slot : string) (props : obj value)
    (entry : string * option VariantValues) : option Styles :=
  match oget entry.1 props with
  | None => None
  | Some value =>
      if negb (defined value) then None
      else
        match entry.2 with
        | None => None
        | Some variantConfig =>
            slotOf slot (readOpt (normalizeVariantValue value) variantConfig)
        end
  end.

(** The patch that one iteration of the loop of [applyCompound] merges, if
    any. *)
Definition compoundPatchFor (slot : string) (props : obj value)
    (cv : CompoundVariant) : option Styles :=
  if isMatch (conditions cv) props then slotOf slot (css cv) else None.

(** A resolver that has forgotten the variant [name]: its row of the variant
    table and the compound rules that test it. *)
Definition forgetVariant (name : string) (c : Closure) : Closure :=
  {| frozenSlots := frozenSlots c;
     cBase := cBase c;
     cVariants := filter (fun entry => entry.1 <> name) (cVariants c);
     cDefaultVariants := cDefaultVariants c;
     frozenCompoundVariants :=
       filter (fun cv => name ∉ okeys (conditions cv))
         (frozenCompoundVariants c);
     configRef := configRef c |}.

(** The selection gives [name] a value that the configuration of [c] does
    not know: no row of the variant table has an entry for it and no
    compound rule asks for it. *)
Definition unknownEntry (c : Closure) (name : string) (v : value) : Prop :=
  (forall variantConfig,
      (name, Some variantConfig) ∈ cVariants c ->
      readOpt (normalizeVariantValue v) variantConfig = None)
  /\ (forall cv condValue,
        cv ∈ frozenCompoundVariants c ->
        (name, condValue) ∈ conditions cv ->
        normalizeVariantValue condValue <> normalizeVariantValue v).

(** A [size] variant one of whose values is spelled ["undefined"], and a
    compound rule asking for that value. *)
Definition undefinedRule : CompoundVariant :=
  {| css := Some [("root", Some [("padding", PNum 1)])];
     conditions := [("size", VStr "undefined")] |}.

Definition undefinedRuleConfig : Config :=
  {| slots := ["root"];
     base := Some [("root", Some [("margin", PNum 0)])];
     variants :=
       Some [("size",
              Some [("sm", Some [("root", Some [("padding", PNum 4)])]);
                    ("undefined", Some [("root", Some [("padding", PNum 9)])])])];
     defaultVariants := None;
     compoundVariants := Some [undefinedRule] |}.

(** ** Util names in styles *)

(** [key in utils] *)
Definition inUtils (key : string) (utils : UtilsConfig) : bool :=
  match oget key utils with Some _ => true | None => false end.

(** No key of the style names a util. *)
Definition utilFree (utils : UtilsConfig) (style : Styles) : bool :=
  forallb (fun kv => negb (inUtils kv.1 utils)) style.

(** No util returns a style with a util-named key: utils do not refer to
    utils. *)
Definition utilsClosed (utils : UtilsConfig) : Prop :=
  forall name utilFn v, (name, utilFn) ∈ utils -> utilFree utils (utilFn v).






(** A util [p] that refers to the util [px]. *)
Definition nestedUtils : UtilsConfig :=
  [("px", fun v => [("paddingLeft", v); ("paddingRight", v)]);
   ("p", fun v => [("px", v); ("paddingTop", v); ("paddingBottom", v)])].


(** ** Well-formed configurations without util keys *)

(** The keys of an object literal are distinct. *)
Definition distinctKeys {A} (o : obj A) : bool :=
  bool_decide (NoDup (okeys o)).

Definition wfStyle (utils : UtilsConfig) (style : option Styles) : bool :=
  match style with
  | Some style => distinctKeys style && utilFree utils style
  | None => true
  end.

Definition wfSlotStyles (utils : UtilsConfig) (o : SlotStyles) : bool :=
  distinctKeys o && forallb (fun kv => wfStyle utils kv.2) o.

Definition wfVariantValues (utils : UtilsConfig) (values : VariantValues)
    : bool :=
  distinctKeys values
  && forallb
       (fun ventry =>
          match ventry.2 with
          | Some o => wfSlotStyles utils o
          | None => true
          end)
       values.

Definition wfVariantEntry (utils : UtilsConfig)
    (entry : string * option VariantValues) : bool :=
  match entry.2 with
  | Some values => wfVariantValues utils values
  | None => true
  end.

Definition wfRule (utils : UtilsConfig) (cv : CompoundVariant) : bool :=
  distinctKeys (conditions cv)
  && match css cv with
     | Some o => wfSlotStyles utils o
     | None => true
     end.

(** Every object of the configuration has distinct keys and no style uses a
    util name of [utils] as key. *)
Definition wfConfig (utils : UtilsConfig) (config : Config) : bool :=
  wfSlotStyles utils (default [] (base config))
  && distinctKeys (default [] (variants config))
  && forallb (wfVariantEntry utils) (default [] (variants config))
  && forallb (wfRule utils) (default [] (compoundVariants config)).

(** The conditions of the compound rules are typed by the variant table
    ([CompoundVariant<S, V>]): a rule asks a variant only for a value that
    the table declares. *)
Definition rulesTyped (c : Closure) : Prop :=
  forall cv name condValue,
    cv ∈ frozenCompoundVariants c ->
    (name, condValue) ∈ conditions cv ->
    forall variantConfig,
      (name, Some variantConfig) ∈ cVariants c ->
      is_Some (readOpt (normalizeVariantValue condValue) variantConfig).

(** Two optional contributions that merge alike: equal, or the empty style
    against none. *)
Definition mergesAlike (x y : option Styles) : Prop :=
  x = y ∨ (x = Some [] ∧ y = None).

(** ** The property order of an object

    The own properties of an object are enumerated (by [for...in],
    [Object.keys], the spread) array indices first, in ascending numeric
    order, then the other names in the order in which they were created. An
    array index is the canonical decimal spelling of an integer from 0 to
    2^32 - 2. *)

Definition digitOf (c : ascii) : option N :=
  let code := N_of_ascii c in
  if ((48 <=? code) && (code <=? 57))%N then Some (code - 48)%N else None.

Fixpoint digitsValue (acc : N) (s : string) : option N :=
  match s with
  | EmptyString => Some acc
  | String c s' =>
      match digitOf c with
      | Some d => digitsValue (10 * acc + d)%N s'
      | None => None
      end
  end.

Definition arrayIndex (k : string) : option N :=
  match k with
  | EmptyString => None
  | String c rest =>
      if decide (c = "0"%char) then
        if decide (rest = EmptyString) then Some 0%N else None
      else
        match digitsValue 0 k with
        | Some n => if (n <? 4294967295)%N then Some n else None
        | None => None
        end
  end.

Section property_order.
Context {A : Type}.

(** The place of a new property whose name is the array index [i]: after
    the array indices below [i]. *)
Fixpoint insertIndex (i : N) (k : string) (v : A) (o : obj A) : obj A :=
  match o with
  | [] => [(k, v)]
  | (k', v') :: o' =>
      match arrayIndex k' with
      | Some i' =>
          if (i' <? i)%N then (k', v') :: insertIndex i k v o'
          else (k, v) :: o
      | None => (k, v) :: o
      end
  end.

(** The definition of the property [k] with the value [v]: an existing
    property keeps its place. *)
Definition defineProperty (k : string) (v : A) (o : obj A) : obj A :=
  match arrayIndex k with
  | Some i =>
      if decide (k ∈ okeys o) then oset k v o else insertIndex i k v o
  | None => oset k v o
  end.

(** The object that the literal [{k1: v1, ..., kn: vn}] evaluates to. *)
Definition objectLiteral (properties : list (string * A)) : obj A :=
  fold_left (fun o kv => defineProperty kv.1 kv.2 o) properties [].

(** [entry1] may be enumerated before [entry2]: not a name that is no array
    index before an array index, nor an array index before a smaller one. *)
Definition enumeratedBefore (entry1 entry2 : string * A) : Prop :=
  match arrayIndex entry1.1, arrayIndex entry2.1 with
  | Some i, Some j => (i <= j)%N
  | Some _, None => True
  | None, Some _ => False
  | None, None => True
  end.

End property_order.

(** Two variants that set the same property of [root], the one declared
    second under an integer-like name. *)
Definition indexNamedVariants : list (string * option VariantValues) :=
  [("b", Some [("on", Some [("root", Some [("padding", PNum 1)])])]);
   ("1", Some [("on", Some [("root", Some [("padding", PNum 2)])])])].

Definition indexNamedConfig : Config :=
  {| slots := ["root"];
     base := None;
     variants := Some (objectLiteral indexNamedVariants);
     defaultVariants := None;
     compoundVariants := None |}.

(** ** Inherited properties

    [applyVariant] tests the selection with [hasOwnProperty], but reads
    [variantConfig[normalizedValue]?.[slot]] as it is: when the table of the
    variant has no entry of its own for the value, the read finds what a
    plain object inherits from [Object.prototype]. *)

(** The members of [Object.prototype] that are functions, by property name,
    with the [name] of the function. The remaining member, the accessor
    [__proto__], returns [Object.prototype] itself. *)
Definition objectPrototypeFunctions : obj string :=
  [("constructor", "Object");
   ("__defineGetter__", "__defineGetter__");
   ("__defineSetter__", "__defineSetter__");
   ("hasOwnProperty", "hasOwnProperty");
   ("__lookupGetter__", "__lookupGetter__");
   ("__lookupSetter__", "__lookupSetter__");
   ("isPrototypeOf", "isPrototypeOf");
   ("propertyIsEnumerable", "propertyIsEnumerable");
   ("toString", "toString");
   ("valueOf", "valueOf");
   ("toLocaleString", "toLocaleString")].

(** What [variantConfig[normalizedValue]?.[slot]] evaluates to, as far as
    the test [if (styleForValue)] and the spread tell values apart. *)
Inductive StyleForValue :=
  | OwnStyle (style : Styles)
    (** the style declared for the value and the slot *)
  | FunctionName (name : string)
    (** the [name] of an inherited function, a non-empty string *)
  | NoStyle
    (** [undefined] or another falsy value, or a truthy value without own
        enumerable property (a function, a number, [Object.prototype]),
        whose spread adds nothing *)
  | ThrowsTypeError
    (** the accessors [caller] and [arguments] of [Function.prototype],
        which throw for a built-in function *).

Definition readStyleForValue (variantConfig : VariantValues)
    (normalizedValue slot : string) : StyleForValue :=
  match oget normalizedValue variantConfig with
  | Some own =>
      match slotOf slot own with
      | Some style => OwnStyle style
      | None => NoStyle
      end
  | None =>
      match oget normalizedValue objectPrototypeFunctions with
      | Some functionName =>
          if decide (slot = "name") then FunctionName functionName
          else if decide (slot ∈ ["caller"; "arguments"]) then ThrowsTypeError
          else NoStyle
      | None => NoStyle
      end
  end.

(** The own enumerable properties of a string: its characters, under their
    positions. *)
Fixpoint stringProperties (position : nat) (s : string) : Styles :=
  match s with
  | EmptyString => []
  | String c rest =>
      (pretty position, PStr (String c EmptyString))
      :: stringProperties (S position) rest
  end.

(** [{...style, ...s}] for a string [s]. *)
Definition spreadString (style : Styles) (s : string) : Styles :=
  fold_left (fun o kv => defineProperty kv.1 kv.2 o)
    (stringProperties 0 s) (spread style).

(** [applyVariant] with the inherited members; [None] when the call
    throws. *)
Definition applyVariantInherited (slot : string) (variants : Variants)
    (props : obj value) : option Styles :=
  fold_left
    (fun style entry =>
       match style with
       | None => None
       | Some style =>
           let '(variantKey, variantConfig) := entry in
           match oget variantKey props with
           | None => Some style
           | Some value =>
               if negb (defined value) then Some style
               else
                 match variantConfig with
                 | None => Some style
                 | Some variantConfig =>
                     let normalizedValue := normalizeVariantValue value in
                     match
                       readStyleForValue variantConfig normalizedValue slot
                     with
                     | OwnStyle styleForValue =>
                         Some (spread2 style styleForValue)
                     | FunctionName name => Some (spreadString style name)
                     | NoStyle => Some style
                     | ThrowsTypeError => None
                     end
                 end
           end
       end)
    variants (Some []).

(** A component whose slot is called [name]. *)
Definition nameSlotVariants : Variants :=
  [("size",
    Some [("sm", Some [("name", Some [("padding", PNum 4)])]);
          ("lg", Some [("name", Some [("padding", PNum 16)])])])].

(** * Further code of the library *)

(** ** [cn]: merging style inputs ([lib/cn.ts]) *)

(** A style object whose properties may hold [undefined] ([None]). *)
Abbreviation StyleObject := (obj (option prim)).

(** A [StyleInput]: a falsy value ([null], [undefined], [false]), a style
    object, an array of inputs, or some other truthy value that is neither
    (a registered style number, say). *)
Inductive StyleInput :=
  | SIFalsy
  | SIObject (o : StyleObject)
  | SIArray (items : list StyleInput)
  | SIOther.

(** What a flattened list holds: truthy values that are not arrays. *)
Inductive FlatStyle :=
  | FObject (o : StyleObject)
  | FOther.

Fixpoint flattenStyle (style : StyleInput) : list FlatStyle :=
  match style with
  | SIFalsy => []
  | SIArray items =>
      (fix loop (items : list StyleInput) : list FlatStyle :=
         match items with
         | [] => []
         | item :: items =>
             match item with
             | SIFalsy => loop items
             | SIArray _ => flattenStyle item ++ loop items
             | SIObject o => FObject o :: loop items
             | SIOther => FOther :: loop items
             end
         end) items
  | SIObject o => [FObject o]
  | SIOther => [FOther]
  end.

(** The inner loop of [mergeStyles]: the properties of [style] that are not
    [undefined] are written to [result]. *)
Definition copyDefined (style result : StyleObject) : StyleObject :=
  fold_left
    (fun result key =>
       match oget key style with
       | Some (Some value) => oset key (Some value) result
       | _ => result
       end)
    (okeys style) result.

Definition mergeStyles (styles : list FlatStyle) : StyleObject :=
  match styles with
  | [] => []
  | [FObject o] => o
  | _ =>
      fold_left
        (fun result style =>
           match style with
           | FObject o => copyDefined o result
           | FOther => result
           end)
        styles []
  end.

(** The list [flattened] that [cn] builds; the entries of a flattened array
    are all truthy. *)
Definition cnFlattened (styles : list StyleInput) : list FlatStyle :=
  fold_left
    (fun flattened style =>
       match style with
       | SIFalsy => flattened
       | SIArray _ => flattened ++ flattenStyle style
       | SIObject o => flattened ++ [FObject o]
       | SIOther => flattened
       end)
    styles [].

Definition cn (styles : list StyleInput) : StyleObject :=
  mergeStyles (cnFlattened styles).

(** The value of a property that is present and not [undefined]. *)
Definition definedGet (k : string) (o : StyleObject) : option prim :=
  match oget k o with
  | Some (Some v) => Some v
  | _ => None
  end.

(** The style objects of a flattened list, in order. *)
Definition flatObjects (styles : list FlatStyle) : list StyleObject :=
  omap (fun style => match style with FObject o => Some o | FOther => None end)
    styles.

(** The value that the last object defining [k] gives it. *)
Definition lastDefined (k : string) (objects : list StyleObject)
    : option prim :=
  fold_left
    (fun found o =>
       match definedGet k o with
       | Some v => Some v
       | None => found
       end)
    objects None.

(** What [cn] adds to [flattened] for one argument. *)
Definition cnEntry (style : StyleInput) : list FlatStyle :=
  match style with
  | SIOther => []
  | _ => flattenStyle style
  end.

(** ** Text and view styles ([utils/compose-text.ts]) *)

(** The keys of the set [textStyleKeys]. *)
Definition textStyleKeys : list string :=
  ["color"; "fontSize"; "fontWeight"; "fontStyle"; "textAlign";
   "textAlignVertical"; "letterSpacing"; "lineHeight"; "textDecorationLine";
   "textDecorationColor"; "textDecorationStyle"; "fontFamily";
   "includeFontPadding"; "textTransform"; "writingDirection";
   "textShadowColor"; "textShadowOffset"; "textShadowRadius"; "fontVariant";
   "userSelect"].

(** [textStyleKeys.has(key)] *)
Definition isTextKey (key : string) : bool :=
  bool_decide (key ∈ textStyleKeys).

(** [style[key]], [undefined] when the key is missing. *)
Definition styleProp (key : string) (style : StyleObject) : option prim :=
  default None (oget key style).

Definition composeText (style : option StyleObject) : StyleObject :=
  match style with
  | None => []
  | Some style =>
      fold_left
        (fun result key =>
           if isTextKey key then oset key (styleProp key style) result
           else result)
        (okeys style) []
  end.

Definition hasTextStyles (style : option StyleObject) : bool :=
  match style with
  | None => false
  | Some style => existsb isTextKey (okeys style)
  end.

Definition composeView (style : option StyleObject) : StyleObject :=
  match style with
  | None => []
  | Some style =>
      fold_left
        (fun result key =>
           if negb (isTextKey key) then oset key (styleProp key style) result
           else result)
        (okeys style) []
  end.

(** ** The theme provider ([provider/theme-provider.tsx]) *)

Inductive ColorScheme := Light | Dark.

(** [ThemeMode]: a colour scheme or ["system"]. *)
Inductive ThemeMode :=
  | Explicit (scheme : ColorScheme)
  | SystemMode.

(** [ColorSchemeName]: ["light"], ["dark"], [null] or [undefined]. *)
Abbreviation ColorSchemeName := (option ColorScheme).

Global Instance ColorScheme_eq_dec : EqDecision ColorScheme.
Proof. solve_decision. Defined.
Global Instance ThemeMode_eq_dec : EqDecision ThemeMode.
Proof. solve_decision. Defined.

Definition resolveColorScheme (mode : ThemeMode)
    (systemScheme : ColorSchemeName) : ColorScheme :=
  match mode with
  | SystemMode =>
      match systemScheme with
      | Some Dark => Dark
      | _ => Light
      end
  | Explicit scheme => scheme
  end.

(** The three state cells of [ThemeProvider]. *)
Record ProviderState := {
  mode : ThemeMode;
  systemScheme : ColorSchemeName;
  isHydrated : bool;
}.

(** The state of the first render: [defaultMode] defaults to ["system"],
    [appearance] is [Appearance.getColorScheme()], and the provider is
    hydrated from the start when there is no [onGetStorage]. *)
Definition initialState (defaultMode : option ThemeMode)
    (appearance : ColorSchemeName) (hasGetStorage : bool) : ProviderState :=
  {| mode := default SystemMode defaultMode;
     systemScheme := appearance;
     isHydrated := negb hasGetStorage |}.

(** [setMode]: the new state and the calls made to [onSetStorage]. *)
Definition setMode (hasSetStorage : bool) (newMode : ThemeMode)
    (st : ProviderState) : ProviderState * list ThemeMode :=
  ({| mode := newMode;
      systemScheme := systemScheme st;
      isHydrated := isHydrated st |},
   if hasSetStorage then [newMode] else []).

(** [toggle] is a callback of one render: it reads the [mode] and the
    [systemScheme] that this render ([rendered]) saw, and writes to the
    state cells ([st]), which may have changed since. *)
Definition toggleOf (hasSetStorage : bool) (rendered st : ProviderState)
    : ProviderState * list ThemeMode :=
  let currentScheme :=
    resolveColorScheme (mode rendered) (systemScheme rendered) in
  let newMode :=
    match currentScheme with
    | Light => Dark
    | Dark => Light
    end in
  setMode hasSetStorage (Explicit newMode) st.

(** [toggle] called from the render of the current state. *)
Definition toggle (hasSetStorage : bool) (st : ProviderState)
    : ProviderState * list ThemeMode :=
  let currentScheme := resolveColorScheme (mode st) (systemScheme st) in
  let newMode :=
    match currentScheme with
    | Light => Dark
    | Dark => Light
    end in
  setMode hasSetStorage (Explicit newMode) st.

(** The listener registered with [Appearance.addChangeListener]. *)
Definition systemChanged (colorScheme : ColorSchemeName)
    (st : ProviderState) : ProviderState :=
  {| mode := mode st;
     systemScheme := colorScheme;
     isHydrated := isHydrated st |}.

(** The continuation of [onGetStorage()]: a stored mode that is not [null]
    becomes the mode. *)
Definition storageLoaded (storedMode : option ThemeMode)
    (st : ProviderState) : ProviderState :=
  {| mode := match storedMode with Some m => m | None => mode st end;
     systemScheme := systemScheme st;
     isHydrated := true |}.

(** The data of a [ThemeContextValue]. *)
Record ThemeContextValue (T : Type) := {
  colorScheme : ColorScheme;
  valueMode : ThemeMode;
  isDark : bool;
  colors : T;
}.
Global Arguments colorScheme {_} _.
Global Arguments valueMode {_} _.
Global Arguments isDark {_} _.
Global Arguments colors {_} _.

(** The memoized [value], for the colours [colors.default] and
    [colors.dark]. *)
Definition contextValue {T} (defaultColors darkColors : T)
    (st : ProviderState) : ThemeContextValue T :=
  let colorScheme := resolveColorScheme (mode st) (systemScheme st) in
  {| colorScheme := colorScheme;
     valueMode := mode st;
     isDark := bool_decide (colorScheme = Dark);
     colors := if bool_decide (colorScheme = Dark) then darkColors
               else defaultColors |}.

(** What [ThemeProvider] renders: nothing until hydrated. *)
Definition renderProvider {T} (defaultColors darkColors : T)
    (st : ProviderState) : option (ThemeContextValue T) :=
  if negb (isHydrated st) then None
  else Some (contextValue defaultColors darkColors st).

(** What happens to a mounted provider. The provider is rendered again
    between two events: [setMode] and [toggle] are the callbacks of the
    render of the current state. *)
Inductive ProviderEvent :=
  | SetMode (newMode : ThemeMode)
  | Toggle
  | SystemChanged (colorScheme : ColorSchemeName)
  | StorageLoaded (storedMode : option ThemeMode).

Definition providerStep (hasSetStorage : bool) (st : ProviderState)
    (event : ProviderEvent) : ProviderState :=
  match event with
  | SetMode newMode => (setMode hasSetStorage newMode st).1
  | Toggle => (toggle hasSetStorage st).1
  | SystemChanged colorScheme => systemChanged colorScheme st
  | StorageLoaded storedMode => storageLoaded storedMode st
  end.

Definition runProvider (hasSetStorage : bool) (events : list ProviderEvent)
    (st : ProviderState) : ProviderState :=
  fold_left (providerStep hasSetStorage) events st.

Definition isSystemChanged (event : ProviderEvent) : bool :=
  match event with SystemChanged _ => true | _ => false end.

Definition isStorageLoaded (event : ProviderEvent) : bool :=
  match event with StorageLoaded _ => true | _ => false end.

Definition oppositeScheme (scheme : ColorScheme) : ColorScheme :=
  match scheme with Light => Dark | Dark => Light end.

(** ** [createNVA]: the instance and its theme *)

(** [resolvedTheme]: the colours, and the eleven token scales that
    [createNVA] passes on unchanged, taken together. *)
Record ResolvedTheme (Scales : Type) := {
  themeColors : obj string;
  themeScales : Scales;
}.
Global Arguments themeColors {_} _.
Global Arguments themeScales {_} _.

(** [theme.colors]: the light colours ([default]) and the dark ones. *)
Record ColorsInput := {
  colorsDefault : obj string;
  colorsDark : obj string;
}.

Record NVAOptions := {
  optionsTheme : option ColorsInput;
  optionsUtils : option UtilsConfig;
}.

(** What [createNVA] returns. *)
Record NVAInstance (Scales : Type) := {
  nvaTheme : ResolvedTheme Scales;
  nvaColorScheme : option ColorsInput;
  nvaStyled : nat -> ConfigOrFactory (ResolvedTheme Scales) -> Closure;
  nvaUtils : UtilsConfig;
}.
Global Arguments nvaTheme {_} _.
Global Arguments nvaColorScheme {_} _.
Global Arguments nvaStyled {_} _.
Global Arguments nvaUtils {_} _.

(** [palette] and [scales] are the tables of [defaultTokens]. *)
Definition createNVA {Scales : Type} (palette : obj string) (scales : Scales)
    (options : option NVAOptions) : NVAInstance Scales :=
  let inputTheme :=
    match options with Some options => optionsTheme options | None => None end in
  let inputUtils :=
    default []
      match options with Some options => optionsUtils options | None => None end in
  let userColors :=
    match inputTheme with
    | Some colors => colorsDefault colors
    | None => []
    end in
  let mergedColors := spread2 palette userColors in
  let resolvedTheme :=
    {| themeColors := mergedColors; themeScales := scales |} in
  {| nvaTheme := resolvedTheme;
     nvaColorScheme := inputTheme;
     nvaStyled := NVA.styled resolvedTheme inputUtils;
     nvaUtils := inputUtils |}.

(** ** What an entry of a style writes during the expansion *)

(** What one step of the loop of [expandUtils] writes under the key [k]:
    the value that the util named by the entry gives [k] (the last one,
    should its result list [k] twice), or the value of a plain property
    named [k]; [None] when the step does not write [k]. *)
Definition writtenBy (utils : UtilsConfig) (k : string)
    (entry : string * prim) : option prim :=
  match oget entry.1 utils with
  | Some utilFn => oget k (reverse (utilFn entry.2))
  | None => if decide (k = entry.1) then Some entry.2 else None
  end.

(** The last write under [k] among the entries of a style, in order. *)
Definition lastWritten (utils : UtilsConfig) (k : string) (style : Styles)
    : option prim :=
  fold_left
    (fun found entry =>
       match writtenBy utils k entry with
       | Some v => Some v
       | None => found
       end)
    style None.

(** * Properties *)

(** ** Objects *)

Section obj_lemmas.
Context {A : Type}.
Implicit Types (o a b : obj A) (k : string) (v : A).

Lemma oget_oset k k' v o :
  oget k (oset k' v o) = if decide (k = k') then Some v else oget k o.
Proof.
  induction o as [|[k0 v0] o IH]; simpl.
  - repeat case_decide; congruence.
  - repeat (case_decide; simpl); congruence.
Qed.

Lemma oget_None k o : oget k o = None ↔ k ∉ okeys o.
Proof.
  unfold okeys. induction o as [|[k0 v0] o IH]; simpl.
  - split; [intros _; apply not_elem_of_nil | done].
  - rewrite not_elem_of_cons. case_decide; naive_solver.
Qed.

Lemma oget_Some_elem k v o : oget k o = Some v → (k, v) ∈ o.
Proof.
  induction o as [|[k0 v0] o IH]; simpl; [done|].
  case_decide; intros; simplify_eq; [left | right; auto].
Qed.

Lemma oset_fresh k v o : k ∉ okeys o → oset k v o = o ++ [(k, v)].
Proof.
  unfold okeys. induction o as [|[k0 v0] o IH]; simpl; [done|].
  rewrite not_elem_of_cons. intros [? ?]. case_decide; [done|].
  by rewrite IH.
Qed.

Lemma okeys_oset_in k v o : k ∈ okeys o → okeys (oset k v o) = okeys o.
Proof.
  unfold okeys. induction o as [|[k0 v0] o IH]; simpl.
  - by intros ?%elem_of_nil.
  - case_decide; simplify_eq/=; [done|].
    rewrite elem_of_cons. intros [?|?]; [done|]. by rewrite IH.
Qed.

Lemma okeys_oset k v o :
  okeys (oset k v o) = if decide (k ∈ okeys o) then okeys o else okeys o ++ [k].
Proof.
  case_decide.
  - by apply okeys_oset_in.
  - rewrite oset_fresh by done. unfold okeys. by rewrite fmap_app.
Qed.

Lemma NoDup_oset k v o : NoDup (okeys o) → NoDup (okeys (oset k v o)).
Proof.
  intros Hnd. rewrite okeys_oset. case_decide; [done|].
  apply NoDup_app. split_and!; [done| |apply NoDup_singleton].
  intros x Hx ->%list_elem_of_singleton. done.
Qed.

Lemma NoDup_assign a b : NoDup (okeys a) → NoDup (okeys (assign a b)).
Proof.
  unfold assign. revert a. induction b as [|[k v] b IH]; simpl; [done|].
  intros a Ha. apply IH. by apply NoDup_oset.
Qed.

Lemma NoDup_spread a : NoDup (okeys (spread a)).
Proof. apply NoDup_assign. constructor. Qed.

Lemma assign_app_NoDup a b : NoDup (okeys (a ++ b)) → assign a b = a ++ b.
Proof.
  unfold assign. revert a. induction b as [|[k v] b IH]; simpl; intros a Hnd.
  - by rewrite app_nil_r.
  - rewrite oset_fresh.
    + rewrite IH; rewrite <-(assoc_L (++)); done.
    + unfold okeys in *. rewrite fmap_app in Hnd.
      apply NoDup_app in Hnd as (_ & Hd & _).
      intros Hk. apply (Hd k Hk). simpl. left.
Qed.

Lemma spread_id a : NoDup (okeys a) → spread a = a.
Proof. intros. unfold spread. by rewrite assign_app_NoDup. Qed.

Lemma spread_spread a : spread (spread a) = spread a.
Proof. apply spread_id, NoDup_spread. Qed.

Lemma assign_nil_r a : assign a [] = a.
Proof. done. Qed.

Lemma assign_snoc a b k v : assign a (b ++ [(k, v)]) = oset k v (assign a b).
Proof. unfold assign. by rewrite fold_left_app. Qed.

Lemma assign_app a b c : assign a (b ++ c) = assign (assign a b) c.
Proof. unfold assign. by rewrite fold_left_app. Qed.

(** Later sources win: the value of a key after [assign]. *)
Lemma oget_assign k a b :
  oget k (assign a b) =
    match oget k (reverse b) with Some v => Some v | None => oget k a end.
Proof.
  induction b as [|[k' v'] b IH] using rev_ind; [done|].
  rewrite assign_snoc, oget_oset, reverse_snoc. simpl.
  case_decide; [done|]. apply IH.
Qed.

Lemma okeys_assign_subseteq a b : okeys (assign a b) ⊆ okeys a ++ okeys b.
Proof.
  induction b as [|[k' v'] b IH] using rev_ind.
  - unfold okeys. simpl. by rewrite app_nil_r.
  - rewrite assign_snoc, okeys_oset. unfold okeys in *. rewrite fmap_app. simpl.
    case_decide; set_solver.
Qed.
End obj_lemmas.

(** ** The matchers read a selection through [nget] only *)

Lemma normalizeVariantValue_toString v : normalizeVariantValue v = toString v.
Proof. by destruct v as [|[]|]. Qed.

Lemma normalize_propOf k props :
  normalizeVariantValue (propOf k props) = default "undefined" (nget k props).
Proof.
  unfold propOf, nget. destruct (oget k props) as [[| |]|]; done.
Qed.

Lemma fold_left_ext_in {A B} (f g : A → B → A) (l : list B) (a : A) :
  (∀ a b, b ∈ l → f a b = g a b) → fold_left f l a = fold_left g l a.
Proof.
  revert a. induction l as [|b l IH]; intros a Hfg; simpl; [done|].
  rewrite Hfg by left. apply IH. intros ???. apply Hfg. by right.
Qed.

Lemma applyVariant_ext slot variants p1 p2 :
  sameSelection p1 p2 →
  applyVariant slot variants p1 = applyVariant slot variants p2.
Proof.
  intros Hsame. unfold applyVariant. apply fold_left_ext_in.
  intros style [variantKey variantConfig] _.
  specialize (Hsame variantKey). unfold nget in Hsame.
  destruct (oget variantKey p1) as [v1|], (oget variantKey p2) as [v2|];
    try destruct (defined v1) eqn:?; try destruct (defined v2) eqn:?;
    simplify_eq/=; try done.
  by rewrite Hsame.
Qed.

Lemma isMatch_ext conds p1 p2 :
  sameSelection p1 p2 → isMatch conds p1 = isMatch conds p2.
Proof.
  intros Hsame. unfold isMatch. induction conds as [|[k v] conds IH]; [done|].
  simpl. by rewrite IH, !normalize_propOf, (Hsame k).
Qed.

Lemma applyCompound_ext slot rules p1 p2 :
  sameSelection p1 p2 →
  applyCompound slot rules p1 = applyCompound slot rules p2.
Proof.
  intros Hsame. unfold applyCompound. apply fold_left_ext_in.
  intros style cv _. by rewrite (isMatch_ext _ p1 p2).
Qed.

Lemma computeSlotStyles_ext slot base variants rules p1 p2 :
  sameSelection p1 p2 →
  computeSlotStyles slot base variants rules p1
  = computeSlotStyles slot base variants rules p2.
Proof.
  intros Hsame. unfold computeSlotStyles.
  by rewrite (applyVariant_ext _ _ p1 p2), (applyCompound_ext _ _ p1 p2).
Qed.

Lemma computeAllSlots_ext c p1 p2 :
  sameSelection p1 p2 → computeAllSlots c p1 = computeAllSlots c p2.
Proof.
  intros Hsame. unfold computeAllSlots. apply fold_left_ext_in.
  intros result slot _. by rewrite (computeSlotStyles_ext _ _ _ _ p1 p2).
Qed.

(** ** The effective selection *)

Lemma oget_app {A} k (o1 o2 : obj A) :
  oget k (o1 ++ o2) =
    match oget k o1 with Some v => Some v | None => oget k o2 end.
Proof.
  induction o1 as [|[k' v'] o1 IH]; simpl; [done|]. by case_decide.
Qed.

Lemma resolveProps_snoc defaults props k v :
  resolveProps defaults (Some (props ++ [(k, v)])) =
    if defined v then oset k v (resolveProps defaults (Some props))
    else resolveProps defaults (Some props).
Proof. unfold resolveProps. by rewrite fold_left_app. Qed.

Lemma nget_oset k k' v props :
  nget k (oset k' v props) =
    if decide (k = k') then (if defined v then Some (normalizeVariantValue v) else None)
    else nget k props.
Proof. unfold nget. rewrite oget_oset. by case_decide. Qed.

Lemma nget_snoc_fresh k k' v p :
  k' ∉ okeys p →
  nget k (p ++ [(k', v)]) =
    if decide (k = k') then (if defined v then Some (normalizeVariantValue v) else None)
    else nget k p.
Proof.
  intros Hfresh%oget_None. unfold nget. rewrite oget_app. simpl.
  case_decide; simplify_eq; [by rewrite Hfresh|]. by destruct (oget k p).
Qed.

Lemma nget_resolveProps_Some defaults p k :
  wfObj p →
  nget k (resolveProps defaults (Some p)) =
    match nget k p with
    | Some s => Some s
    | None => nget k (spread defaults)
    end.
Proof.
  unfold wfObj, okeys.
  induction p as [|[k' v'] p IH] using rev_ind; [done|].
  rewrite fmap_app, NoDup_app. intros (Hnd & Hdisj & _).
  assert (k' ∉ okeys p) as Hfresh.
  { intros Hin. apply (Hdisj _ Hin). simpl. left. }
  rewrite resolveProps_snoc, nget_snoc_fresh by done.
  destruct (defined v') eqn:Hv'.
  - rewrite nget_oset, Hv'. case_decide; [done|]. by apply IH.
  - rewrite IH by done. case_decide; [|done]. subst k.
    unfold nget. apply oget_None in Hfresh. by rewrite Hfresh.
Qed.

(** Defaults overlaid by the defined entries of the caller's selection. *)
Lemma nget_resolveProps defaults props k :
  wfObj (propsOf props) →
  nget k (resolveProps defaults props) =
    match nget k (propsOf props) with
    | Some s => Some s
    | None => nget k (spread defaults)
    end.
Proof.
  destruct props as [p|]; [apply nget_resolveProps_Some|done].
Qed.

Lemma resolveProps_sameSelection defaults p1 p2 :
  wfObj (propsOf p1) → wfObj (propsOf p2) →
  sameSelection (propsOf p1) (propsOf p2) →
  sameSelection (resolveProps defaults p1) (resolveProps defaults p2).
Proof.
  intros Hwf1 Hwf2 Hsame k. by rewrite !nget_resolveProps, (Hsame k).
Qed.

(** ** The cache key *)

Lemma str_app_cons a s t : String a s +:+ t = String a (s +:+ t).
Proof. done. Qed.

Lemma str_app_nil_r s : s +:+ EmptyString = s.
Proof. induction s as [|a s IH]; [done|]. by rewrite str_app_cons, IH. Qed.

Lemma str_app_assoc s1 s2 s3 : (s1 +:+ s2) +:+ s3 = s1 +:+ s2 +:+ s3.
Proof.
  induction s1 as [|a s1 IH]; [done|]. by rewrite !str_app_cons, IH.
Qed.

Lemma entryStr_app k v rest :
  entryStr (k, v) +:+ rest = k +:+ String ":" (v +:+ String ";" rest).
Proof. unfold entryStr. simpl. by rewrite !str_app_assoc. Qed.

(** The loop of [createCacheKey] appends the printed pairs. *)
Lemma cacheKey_loop props keys acc :
  fold_left
    (fun key k =>
       match oget k props with
       | Some v =>
           if defined v then key +:+ k +:+ ":" +:+ toString v +:+ ";" else key
       | None => key
       end) keys acc
  = acc +:+ concatStr (entryStr <$>
      omap (fun k =>
              match oget k props with
              | Some v => if defined v then Some (k, toString v) else None
              | None => None
              end) keys).
Proof.
  revert acc. induction keys as [|k keys IH]; intros acc; simpl.
  - by rewrite str_app_nil_r.
  - rewrite IH. destruct (oget k props) as [v|]; [|done].
    destruct (defined v); [|done]. simpl.
    by rewrite (str_app_assoc acc).
Qed.

Lemma createCacheKey_printed props :
  createCacheKey (Some props) =
    let key := concatStr (entryStr <$> printed props) in
    if decide (key = EmptyString) then "{}" else key.
Proof.
  unfold createCacheKey. case_decide as Hlen.
  - destruct props; [done|discriminate].
  - by rewrite cacheKey_loop.
Qed.

Lemma createCacheKey_propsOf props :
  createCacheKey props = createCacheKey (Some (propsOf props)).
Proof. by destruct props. Qed.

Lemma omap_cons_eq {A B} (f : A → option B) x l :
  omap f (x :: l) =
    match f x with Some y => y :: omap f l | None => omap f l end.
Proof. done. Qed.

Lemma oget_omap_keys {A} (F : string → option A) (l : list string) k :
  oget k (omap (fun k => (k,.) <$> F k) l) = if decide (k ∈ l) then F k else None.
Proof.
  induction l as [|k' l IH]; [done|]. rewrite omap_cons_eq.
  destruct (decide (k = k')) as [->|Hne].
  - destruct (decide (k' ∈ k' :: l)) as [_|Hn]; [|by destruct Hn; left].
    destruct (F k') as [x|] eqn:HF; cbn [fmap option_fmap option_map oget].
    + by rewrite decide_True.
    + rewrite IH. by destruct (decide (k' ∈ l)).
  - destruct (F k') as [x|] eqn:HF; cbn [fmap option_fmap option_map oget];
      [rewrite decide_False by done|]; rewrite IH;
      destruct (decide (k ∈ l)), (decide (k ∈ k' :: l)); try done; set_solver.
Qed.

Lemma printed_alt props :
  printed props =
    omap (fun k => (k,.) <$> nget k props) (sortKeys (okeys props)).
Proof.
  unfold printed, nget. apply list_omap_ext, Forall2_same_length_lookup_2; [done|].
  intros i k k' Hk Hk'. simplify_eq.
  destruct (oget k props) as [v|]; [|done].
  rewrite normalizeVariantValue_toString. by destruct (defined v).
Qed.

Lemma elem_of_sortKeys k keys : k ∈ sortKeys keys ↔ k ∈ keys.
Proof. unfold sortKeys. by rewrite merge_sort_Permutation. Qed.

(** Reading a name off the printed pairs is reading it off the selection. *)
Lemma oget_printed k props : oget k (printed props) = nget k props.
Proof.
  rewrite printed_alt, oget_omap_keys. case_decide as Hk; [done|].
  rewrite elem_of_sortKeys in Hk. apply oget_None in Hk.
  unfold nget. by rewrite Hk.
Qed.

Lemma split_at_char c s1 s2 t1 t2 :
  noChar c s1 → noChar c s2 →
  s1 +:+ String c t1 = s2 +:+ String c t2 → s1 = s2 ∧ t1 = t2.
Proof.
  revert s2. induction s1 as [|a s1 IH]; intros [|b s2]; simpl.
  - intros _ _ Heq. by simplify_eq.
  - intros _ Hb Heq. simplify_eq. apply andb_prop_elim in Hb as [Hb _].
    by rewrite bool_decide_eq_true_2 in Hb.
  - intros Ha _ Heq. simplify_eq. apply andb_prop_elim in Ha as [Ha _].
    by rewrite bool_decide_eq_true_2 in Ha.
  - intros Ha Hb Heq. rewrite !str_app_cons in Heq. simplify_eq.
    apply andb_prop_elim in Ha as [_ Ha], Hb as [_ Hb].
    destruct (IH s2 Ha Hb) as [-> ->]; done.
Qed.

Lemma concatStr_entryStr_inj l1 l2 :
  sepFreePairs l1 → sepFreePairs l2 →
  concatStr (entryStr <$> l1) = concatStr (entryStr <$> l2) → l1 = l2.
Proof.
  intros H1. revert l2.
  induction H1 as [|[k1 v1] l1 [Hk1 Hv1] _ IH]; intros l2 H2 Heq.
  - destruct H2 as [|[k2 v2] l2 _ _]; [done|]. simpl in Heq.
    rewrite entryStr_app in Heq. by destruct k2.
  - destruct H2 as [|[k2 v2] l2 [Hk2 Hv2] H2].
    { simpl in Heq. rewrite entryStr_app in Heq. by destruct k1. }
    simpl in Heq. rewrite !entryStr_app in Heq.
    apply split_at_char in Heq as [-> Heq]; [|done..].
    apply split_at_char in Heq as [-> Heq]; [|done..].
    f_equal. by apply IH.
Qed.

Lemma concatStr_entryStr_nil l : concatStr (entryStr <$> l) = EmptyString → l = [].
Proof.
  destruct l as [|[k v] l]; [done|]. simpl. rewrite entryStr_app.
  by destruct k.
Qed.

(** A printed key is never the empty marker. *)
Lemma concatStr_entryStr_marker l : concatStr (entryStr <$> l) ≠ "{}".
Proof.
  destruct l as [|[k v] l]; [done|]. simpl. rewrite entryStr_app.
  destruct k as [|a [|b [|c k]]]; cbn; intros ?; simplify_eq.
Qed.

Lemma sepFree_printed props : sepFree props → sepFreePairs (printed props).
Proof.
  intros Hsep. unfold sepFree in Hsep.
  apply forallb_True in Hsep.
  unfold printed, sepFreePairs. apply Forall_forall. intros [k s] Hin.
  apply list_elem_of_omap in Hin as (k' & _ & Hk').
  destruct (oget k' props) as [v|] eqn:Hget; [|done].
  destruct (defined v); simplify_eq.
  apply oget_Some_elem in Hget.
  eapply Forall_forall in Hsep; [|done]. simpl in Hsep.
  by apply andb_prop_elim in Hsep.
Qed.

(** Soundness of the key on separator-free selections: the same key means
    the same selection. *)
Lemma createCacheKey_inj p1 p2 :
  sepFree p1 → sepFree p2 →
  createCacheKey (Some p1) = createCacheKey (Some p2) →
  sameSelection p1 p2.
Proof.
  intros Hs1%sepFree_printed Hs2%sepFree_printed.
  rewrite !createCacheKey_printed. simpl. intros Heq.
  assert (printed p1 = printed p2) as Hpr.
  { repeat case_decide.
    - by rewrite (concatStr_entryStr_nil (printed p1)),
        (concatStr_entryStr_nil (printed p2)).
    - symmetry in Heq. by apply concatStr_entryStr_marker in Heq.
    - by apply concatStr_entryStr_marker in Heq.
    - by apply concatStr_entryStr_inj. }
  intros k. by rewrite <-!oget_printed, Hpr.
Qed.

Lemma StronglySorted_filter {A} (R : relation A) (P : A → Prop)
    `{∀ x, Decision (P x)} (l : list A) :
  StronglySorted R l → StronglySorted R (filter P l).
Proof.
  induction 1 as [|x l Hl IH Hx]; [constructor|].
  rewrite filter_cons. case_decide; [|done].
  constructor; [done|]. apply Forall_forall. intros y Hy%list_elem_of_filter.
  eapply Forall_forall in Hx; [done|]. by destruct Hy.
Qed.

Lemma omap_filter_is_Some {A B} (f : A → option B) (l : list A) :
  omap f l = omap f (filter (fun x => is_Some (f x)) l).
Proof.
  induction l as [|x l IH]; [done|].
  rewrite filter_cons, omap_cons_eq. destruct (f x) as [y|] eqn:Hfx.
  - rewrite decide_True by eauto. by rewrite omap_cons_eq, Hfx, IH.
  - rewrite decide_False; [done|]. by intros [??].
Qed.

Lemma nget_is_Some_key k props : is_Some (nget k props) → k ∈ okeys props.
Proof.
  intros [s Hs]. destruct (decide (k ∈ okeys props)) as [|Hk]; [done|].
  apply oget_None in Hk. unfold nget in Hs. by rewrite Hk in Hs.
Qed.

(** Completeness of the key: the same selection prints the same pairs,
    whatever the order of the keys and the entries holding [undefined]. *)
Lemma printed_sameSelection p1 p2 :
  wfObj p1 → wfObj p2 → sameSelection p1 p2 → printed p1 = printed p2.
Proof.
  intros Hwf1 Hwf2 Hsame. rewrite !printed_alt.
  rewrite (omap_filter_is_Some _ (sortKeys (okeys p1))),
    (omap_filter_is_Some _ (sortKeys (okeys p2))).
  assert (filter (λ k, is_Some ((k,.) <$> nget k p1)) (sortKeys (okeys p1))
          = filter (λ k, is_Some ((k,.) <$> nget k p2)) (sortKeys (okeys p2)))
    as ->.
  { apply (StronglySorted_unique String.le).
    - apply StronglySorted_filter, StronglySorted_merge_sort; apply _.
    - apply StronglySorted_filter, StronglySorted_merge_sort; apply _.
    - apply NoDup_Permutation.
      + apply NoDup_filter. unfold sortKeys. by rewrite merge_sort_Permutation.
      + apply NoDup_filter. unfold sortKeys. by rewrite merge_sort_Permutation.
      + intros k. rewrite !list_elem_of_filter, !elem_of_sortKeys.
        rewrite !fmap_is_Some, (Hsame k).
        split; intros [Hk _]; (split; [done|]); apply nget_is_Some_key;
          [done|by rewrite (Hsame k)]. }
  apply list_omap_ext, Forall2_same_length_lookup_2; [done|].
  intros i k k' Hk Hk'. simplify_eq. by rewrite (Hsame k).
Qed.

Lemma createCacheKey_sameSelection p1 p2 :
  wfObj p1 → wfObj p2 → sameSelection p1 p2 →
  createCacheKey (Some p1) = createCacheKey (Some p2).
Proof.
  intros. by rewrite !createCacheKey_printed, (printed_sameSelection p1 p2).
Qed.

(** The key is the empty marker exactly when nothing is selected. *)
Lemma createCacheKey_marker props :
  createCacheKey props = "{}" ↔ ∀ k, nget k (propsOf props) = None.
Proof.
  rewrite createCacheKey_propsOf, createCacheKey_printed. simpl. split.
  - intros Hkey k. rewrite <-oget_printed.
    case_decide as Hnil; [|by apply concatStr_entryStr_marker in Hkey].
    by rewrite (concatStr_entryStr_nil _ Hnil).
  - intros Hnone.
    assert (printed (propsOf props) = []) as ->; [|done].
    rewrite printed_alt. generalize (sortKeys (okeys (propsOf props))).
    intros l. induction l as [|k l IH]; [done|].
    by rewrite omap_cons_eq, Hnone.
Qed.

(** ** The store *)

Lemma cacheLookup_cacheStore st ref k R ref' k' :
  cacheLookup (cacheStore st ref k R).2 ref' k' =
    if decide (ref' = ref ∧ k' = k) then Some (length (objects st))
    else cacheLookup st ref' k'.
Proof.
  unfold cacheLookup, cacheStore. simpl.
  destruct (decide (ref' = ref)) as [->|Href].
  - rewrite lookup_insert_eq.
    destruct (decide (k' = k)) as [->|Hk].
    + rewrite lookup_insert_eq. by rewrite decide_True.
    + rewrite lookup_insert_ne by done. rewrite decide_False by naive_solver.
      by destruct (caches st !! ref).
  - rewrite lookup_insert_ne by done. by rewrite decide_False by naive_solver.
Qed.

Lemma deref_cacheStore_old st ref k R l :
  l < length (objects st) → deref (cacheStore st ref k R).2 l = deref st l.
Proof. intros. unfold deref, cacheStore. simpl. by rewrite lookup_app_l. Qed.

Lemma deref_cacheStore_new st ref k R :
  deref (cacheStore st ref k R).2 (cacheStore st ref k R).1 = Some R.
Proof.
  unfold deref, cacheStore. simpl.
  rewrite lookup_app_r by done. by rewrite Nat.sub_diag.
Qed.

Lemma deref_Some_lt st l R : deref st l = Some R → l < length (objects st).
Proof. unfold deref. apply lookup_lt_Some. Qed.

(** The two outcomes of a call. *)
Lemma computeStyles_hit c props st l :
  cacheLookup st (configRef c) (createCacheKey props) = Some l →
  NVA.computeStyles c props st = (l, st).
Proof. intros Hhit. unfold NVA.computeStyles. by rewrite Hhit. Qed.

Lemma computeStyles_miss c props st :
  cacheLookup st (configRef c) (createCacheKey props) = None →
  NVA.computeStyles c props st =
    cacheStore st (configRef c) (createCacheKey props)
      (computeAllSlots c (resolveProps (cDefaultVariants c) props)).
Proof. intros Hmiss. unfold NVA.computeStyles. by rewrite Hmiss. Qed.

Lemma computeStyles_cases c props st :
  (∃ l, cacheLookup st (configRef c) (createCacheKey props) = Some l ∧
        NVA.computeStyles c props st = (l, st)) ∨
  (cacheLookup st (configRef c) (createCacheKey props) = None ∧
   NVA.computeStyles c props st =
     cacheStore st (configRef c) (createCacheKey props)
       (computeAllSlots c (resolveProps (cDefaultVariants c) props))).
Proof.
  destruct (cacheLookup st (configRef c) (createCacheKey props)) as [l|] eqn:H.
  - left. eauto using computeStyles_hit.
  - right. eauto using computeStyles_miss.
Qed.

(** A call never drops or redirects a cache entry, and never touches an
    object. *)
Lemma computeStyles_keeps_entry c props st ref k l :
  cacheLookup st ref k = Some l →
  cacheLookup (NVA.computeStyles c props st).2 ref k = Some l.
Proof.
  intros Hl. destruct (computeStyles_cases c props st) as [(l'&_&->)|[Hmiss ->]];
    [done|].
  rewrite cacheLookup_cacheStore. case_decide as Heq; [|done].
  destruct Heq as [-> ->]. congruence.
Qed.

Lemma computeStyles_keeps_object c props st l R :
  deref st l = Some R → deref (NVA.computeStyles c props st).2 l = Some R.
Proof.
  intros Hl. destruct (computeStyles_cases c props st) as [(l'&_&->)|[Hmiss ->]];
    [done|].
  rewrite deref_cacheStore_old; [done|]. by eapply deref_Some_lt.
Qed.

Lemma computeStyles_storeWf c props st :
  storeWf st → storeWf (NVA.computeStyles c props st).2.
Proof.
  intros Hwf. destruct (computeStyles_cases c props st) as [(l'&_&->)|[Hmiss ->]];
    [done|].
  intros ref k l. rewrite cacheLookup_cacheStore.
  unfold cacheStore. simpl. rewrite length_app. simpl.
  case_decide; intros Hl; simplify_eq; [lia|].
  apply Hwf in Hl. lia.
Qed.

(** What a call returns is in the cache afterwards and points to an
    object. *)
Lemma computeStyles_returns c props st :
  storeWf st →
  cacheLookup (NVA.computeStyles c props st).2 (configRef c)
    (createCacheKey props) = Some (NVA.computeStyles c props st).1
  ∧ is_Some (deref (NVA.computeStyles c props st).2
               (NVA.computeStyles c props st).1).
Proof.
  intros Hwf.
  destruct (computeStyles_cases c props st) as [(l'&Hhit&->)|[Hmiss ->]].
  - simpl. split; [done|]. apply lookup_lt_is_Some. by eapply Hwf.
  - split.
    + rewrite cacheLookup_cacheStore. by rewrite decide_True.
    + rewrite deref_cacheStore_new. eauto.
Qed.

Lemma emptyStore_wf : storeWf emptyStore.
Proof. intros ref k l. unfold cacheLookup. simpl. by rewrite lookup_empty. Qed.

Lemma runHistory_storeWf history st :
  storeWf st → storeWf (runHistory history st).
Proof.
  revert st. induction history as [|[c p] history IH]; intros st Hwf; [done|].
  simpl. by apply IH, computeStyles_storeWf.
Qed.

Lemma runHistory_keeps_entry history st ref k l :
  cacheLookup st ref k = Some l →
  cacheLookup (runHistory history st) ref k = Some l.
Proof.
  revert st. induction history as [|[c p] history IH]; intros st Hl; [done|].
  simpl. by apply IH, computeStyles_keeps_entry.
Qed.

Lemma runHistory_keeps_object history st l R :
  deref st l = Some R → deref (runHistory history st) l = Some R.
Proof.
  revert st. induction history as [|[c p] history IH]; intros st Hl; [done|].
  simpl. by apply IH, computeStyles_keeps_object.
Qed.

Lemma runHistory_app h1 h2 st :
  runHistory (h1 ++ h2) st = runHistory h2 (runHistory h1 st).
Proof. revert st. induction h1 as [|[c p] h1 IH]; intros st; simpl; auto. Qed.

(** Coherence of the partition of [c] is kept by the calls of [c] itself and
    by the calls of the other resolvers. *)
Lemma computeStyles_coherent P c c' props st :
  storeWf st →
  (configRef c' = configRef c → c' = c ∧ P props) →
  coherent P c st → coherent P c (NVA.computeStyles c' props st).2.
Proof.
  intros Hwf Hc' Hcoh.
  destruct (computeStyles_cases c' props st) as [(l'&_&->)|[Hmiss ->]];
    [done|].
  intros k l. rewrite cacheLookup_cacheStore. case_decide as Heq.
  - destruct Heq as [Href ->]. destruct (Hc' (eq_sym Href)) as [-> HP].
    intros [= <-]. exists props. split_and!; [done..|].
    apply (deref_cacheStore_new st (configRef c)).
  - intros Hl. destruct (Hcoh _ _ Hl) as (props' & HP & Hk & Hobj).
    exists props'. split_and!; [done..|].
    rewrite deref_cacheStore_old; [done|]. by eapply Hwf.
Qed.

Lemma emptyStore_coherent P c : coherent P c emptyStore.
Proof. intros k l. unfold cacheLookup. simpl. by rewrite lookup_empty. Qed.

Lemma runHistory_coherent P c history st :
  storeWf st → historyOk P c history → coherent P c st →
  coherent P c (runHistory history st).
Proof.
  revert st. induction history as [|[c' p] history IH]; intros st Hwf Hok Hcoh;
    [done|].
  apply Forall_cons in Hok as [Hc' Hok]. simpl.
  apply IH; [by apply computeStyles_storeWf|done|].
  by apply computeStyles_coherent.
Qed.

(** ** The cache key as canonical form (C1) *)

(** C1, counterexample. With the default [size: "sm"], the empty selection
    and the selection [{size: "sm"}] have the same effective selection but
    different keys: the key is not a key of the effective selection. *)
Lemma C1_key_not_over_effective_selection :
  ¬ keyOverEffectiveSelection [("size", VStr "sm")].
Proof.
  intros Hkey.
  destruct (Hkey (Some []) (Some [("size", VStr "sm")])) as [_ Hsame].
  - compute_done.
  - compute_done.
  - by specialize (Hsame (fun k => eq_refl)).
Qed.

(** C1, as amended. The key is computed from the selection the caller
    supplied, before the defaults are applied: after a call the returned
    object is the cache entry under the key of the supplied selection. Two
    supplied selections that give every variant name the same normalized
    value (whatever the order of
    their keys, their entries holding [undefined], or a boolean written as
    the string "true" or "false") have the same key. Conversely, when no
    variant name contains a colon and no value a semicolon, two selections
    with the same key are the same selection, and they resolve to the same
    style set. *)
Theorem C1_cache_key_of_supplied_selection (c : Closure)
    (p1 p2 : option (obj value)) :
  isObject p1 → isObject p2 →
  (∀ history,
     let r := NVA.computeStyles c p1 (runHistory history emptyStore) in
     cacheLookup r.2 (configRef c) (createCacheKey p1) = Some r.1)
  ∧ (sameSelection (propsOf p1) (propsOf p2) →
     createCacheKey p1 = createCacheKey p2)
  ∧ (sepFree (propsOf p1) → sepFree (propsOf p2) →
     createCacheKey p1 = createCacheKey p2 →
     sameSelection (propsOf p1) (propsOf p2)
     ∧ computeAllSlots c (resolveProps (cDefaultVariants c) p1)
       = computeAllSlots c (resolveProps (cDefaultVariants c) p2)).
Proof.
  intros Hwf1 Hwf2. split_and!.
  - intros history r.
    apply computeStyles_returns, runHistory_storeWf, emptyStore_wf.
  - intros Hsame. rewrite (createCacheKey_propsOf p1), (createCacheKey_propsOf p2).
    by apply createCacheKey_sameSelection.
  - intros Hs1 Hs2 Hkey.
    rewrite (createCacheKey_propsOf p1), (createCacheKey_propsOf p2) in Hkey.
    pose proof (createCacheKey_inj _ _ Hs1 Hs2 Hkey) as Hsame.
    split; [done|].
    by apply computeAllSlots_ext, resolveProps_sameSelection.
Qed.

(** C1 at a reordered selection with an [undefined] entry and a boolean
    written as a string. *)
Lemma C1_cache_key_of_supplied_selection_witness :
  let c := Plain.styled 0 sizeConfig in
  let p1 := Some [("size", VStr "lg"); ("big", VBool true)] in
  let p2 := Some [("big", VStr "true"); ("ghost", VUndefined);
                  ("size", VStr "lg")] in
  createCacheKey p1 = createCacheKey p2
  ∧ computeAllSlots c (resolveProps (cDefaultVariants c) p1)
    = computeAllSlots c (resolveProps (cDefaultVariants c) p2).
Proof.
  intros c p1 p2.
  destruct (C1_cache_key_of_supplied_selection c p1 p2)
    as (_ & Hkey & Hres).
  - compute_done.
  - compute_done.
  - split.
    + apply Hkey. intros k. unfold nget. simpl.
      repeat case_decide; simplify_eq; done.
    + apply Hres; [done|done|reflexivity].
Defined.

(** Why separator characters are excluded above: the value ["1;b:2"] of [a]
    prints like the two entries [a: "1"] and [b: "2"], and the second call
    is answered with the style set cached by the first. *)
Example createCacheKey_separator_collision :
  createCacheKey (Some [("a", VStr "1;b:2")])
  = createCacheKey (Some [("a", VStr "1"); ("b", VStr "2")]).
Proof. reflexivity. Qed.

(** ** Determinism and referential stability (C2) *)

(** On a coherent partition filled by plain selections, a call with a plain
    selection returns the fresh resolution of that selection, hit or miss. *)
Lemma computeStyles_correct c props st :
  storeWf st → coherent isPlain c st → isPlain props →
  deref (NVA.computeStyles c props st).2 (NVA.computeStyles c props st).1
  = Some (computeAllSlots c (resolveProps (cDefaultVariants c) props)).
Proof.
  intros Hwf Hcoh [Hobj Hsep].
  destruct (computeStyles_cases c props st) as [(l&Hhit&->)|[Hmiss ->]].
  - simpl. destruct (Hcoh _ _ Hhit) as (props' & [Hobj' Hsep'] & Hkey & ->).
    f_equal. apply computeAllSlots_ext, resolveProps_sameSelection; [done..|].
    apply createCacheKey_inj; [done..|].
    by rewrite <-!createCacheKey_propsOf.
  - apply deref_cacheStore_new.
Qed.

(** Two calls with the same key return the same reference, whatever happens
    in between. *)
Lemma computeStyles_same_key c p1 p2 between st :
  storeWf st →
  createCacheKey p1 = createCacheKey p2 →
  let r1 := NVA.computeStyles c p1 st in
  let r2 := NVA.computeStyles c p2 (runHistory between r1.2) in
  r2.1 = r1.1 ∧ is_Some (deref r1.2 r1.1) ∧ deref r2.2 r2.1 = deref r1.2 r1.1.
Proof.
  intros Hwf Hkey r1 r2.
  destruct (computeStyles_returns c p1 st Hwf) as [Hin [R HR]].
  fold r1 in Hin, HR.
  pose proof (runHistory_keeps_entry between _ _ _ _ Hin) as Hin'.
  rewrite Hkey in Hin'.
  assert (r2 = (r1.1, runHistory between r1.2)) as ->.
  { by apply computeStyles_hit. }
  simpl. split_and!; [done|eauto|].
  rewrite HR. by apply runHistory_keeps_object.
Qed.

(** C2, counterexample. With the default [size: "sm"], the calls
    [resolve({})] and [resolve({size: "sm"})] have the same effective
    selection and return two different objects. *)
Lemma C2_equal_effective_selection_distinct_instances :
  let c := NVA.styled () [] 0 (ConfigObject sizeConfig) in
  let p1 := Some [] in
  let p2 := Some [("size", VStr "sm")] in
  let r1 := NVA.computeStyles c p1 emptyStore in
  let r2 := NVA.computeStyles c p2 r1.2 in
  resolveProps (cDefaultVariants c) p1 = resolveProps (cDefaultVariants c) p2
  ∧ r1.1 ≠ r2.1.
Proof. split; [reflexivity|]. vm_compute. discriminate. Qed.

(** C2, as amended. For one resolver, on an instance cache with any
    history: two calls whose supplied selections have the same cache key
    return the identical cached object, whatever calls happen in between;
    and when all selections passed so far are objects without separator
    characters, two calls with the same effective selection return deeply
    equal style sets, each equal to the fresh resolution. *)
Theorem C2_deterministic_and_stable_per_key (c : Closure)
    (before between : list (Closure * option (obj value)))
    (p1 p2 : option (obj value)) :
  let r1 := NVA.computeStyles c p1 (runHistory before emptyStore) in
  let r2 := NVA.computeStyles c p2 (runHistory between r1.2) in
  (createCacheKey p1 = createCacheKey p2 →
   r2.1 = r1.1 ∧ is_Some (deref r1.2 r1.1)
   ∧ deref r2.2 r2.1 = deref r1.2 r1.1)
  ∧ (historyOk isPlain c before → historyOk isPlain c between →
     isPlain p1 → isPlain p2 →
     sameSelection (resolveProps (cDefaultVariants c) p1)
       (resolveProps (cDefaultVariants c) p2) →
     deref r1.2 r1.1
     = Some (computeAllSlots c (resolveProps (cDefaultVariants c) p1))
     ∧ deref r2.2 r2.1 = deref r1.2 r1.1).
Proof.
  intros r1 r2.
  assert (storeWf (runHistory before emptyStore)) as Hwf0
    by apply runHistory_storeWf, emptyStore_wf.
  split.
  - intros Hkey. by apply computeStyles_same_key.
  - intros Hbefore Hbetween Hp1 Hp2 Hsame.
    assert (coherent isPlain c (runHistory before emptyStore)) as Hcoh0.
    { apply runHistory_coherent; [apply emptyStore_wf|done|].
      apply emptyStore_coherent. }
    assert (storeWf r1.2) as Hwf1 by by apply computeStyles_storeWf.
    assert (coherent isPlain c r1.2) as Hcoh1.
    { by apply computeStyles_coherent. }
    assert (deref r1.2 r1.1
            = Some (computeAllSlots c (resolveProps (cDefaultVariants c) p1)))
      as HR1 by by apply computeStyles_correct.
    split; [done|]. rewrite HR1. unfold r2.
    rewrite computeStyles_correct.
    + f_equal. symmetry. by apply computeAllSlots_ext.
    + by apply runHistory_storeWf.
    + by apply runHistory_coherent.
    + done.
Qed.

(** C2 at two selections with the same key, with two calls in between. *)
Lemma C2_deterministic_and_stable_per_key_witness :
  let c := NVA.styled () [] 0 (ConfigObject sizeConfig) in
  let p1 := Some [("size", VStr "lg")] in
  let p2 := Some [("ghost", VUndefined); ("size", VStr "lg")] in
  let between := [(c, Some []); (c, Some [("size", VStr "xl")])] in
  let r1 := NVA.computeStyles c p1 emptyStore in
  let r2 := NVA.computeStyles c p2 (runHistory between r1.2) in
  r2.1 = r1.1
  ∧ deref r2.2 r2.1 = Some [("root", [("padding", PNum 16)])].
Proof.
  intros c p1 p2 between r1 r2.
  destruct (C2_deterministic_and_stable_per_key c [] between p1 p2)
    as [Hkey Hplain].
  destruct Hkey as (Href & _ & _); [reflexivity|].
  split; [exact Href|].
  destruct Hplain as [HR1 HR2].
  - constructor.
  - repeat constructor; compute_done.
  - split; compute_done.
  - split; compute_done.
  - intros k. unfold nget. simpl. repeat case_decide; simplify_eq; done.
  - etrans; [exact HR2|]. etrans; [exact HR1|]. reflexivity.
Defined.

(** ** Default overlay and explicit [undefined] (C4) *)






(** ** Merge precedence (C3) *)

Lemma applyVariant_snoc slot variants entry props :
  applyVariant slot (variants ++ [entry]) props =
    match variantStyleFor slot props entry with
    | Some s => spread2 (applyVariant slot variants props) s
    | None => applyVariant slot variants props
    end.
Proof.
  unfold applyVariant, variantStyleFor. rewrite fold_left_app. simpl.
  destruct entry as [variantKey [variantConfig|]]; simpl;
    destruct (oget variantKey props) as [v|]; try done;
    by destruct (defined v).
Qed.

Lemma applyCompound_snoc slot rules cv props :
  applyCompound slot (rules ++ [cv]) props =
    match compoundPatchFor slot props cv with
    | Some s => spread2 (applyCompound slot rules props) s
    | None => applyCompound slot rules props
    end.
Proof.
  unfold applyCompound, compoundPatchFor. rewrite fold_left_app. simpl.
  by destruct (isMatch (conditions cv) props).
Qed.

Lemma NoDup_spread2 {A} (a b : obj A) : NoDup (okeys (spread2 a b)).
Proof. apply NoDup_assign, NoDup_spread. Qed.

Lemma NoDup_applyVariant slot variants props :
  NoDup (okeys (applyVariant slot variants props)).
Proof.
  induction variants as [|entry variants IH] using rev_ind; [constructor|].
  rewrite applyVariant_snoc. destruct (variantStyleFor slot props entry);
    [apply NoDup_spread2|done].
Qed.

Lemma NoDup_applyCompound slot rules props :
  NoDup (okeys (applyCompound slot rules props)).
Proof.
  induction rules as [|cv rules IH] using rev_ind; [constructor|].
  rewrite applyCompound_snoc. destruct (compoundPatchFor slot props cv);
    [apply NoDup_spread2|done].
Qed.

Lemma oget_reverse_NoDup {A} k (o : obj A) :
  NoDup (okeys o) → oget k (reverse o) = oget k o.
Proof.
  unfold okeys. induction o as [|[k' v'] o IH]; [done|].
  rewrite fmap_cons, NoDup_cons. intros [Hk' Hnd]. simpl in Hk' |- *.
  rewrite reverse_cons, oget_app, IH by done. simpl.
  case_decide as Hk; [|by destruct (oget k o)]. subst k'.
  apply oget_None in Hk'. by rewrite Hk'.
Qed.

(** On a key conflict the later source of a merge wins. *)
Lemma oget_assign_NoDup {A} k (a b : obj A) :
  NoDup (okeys b) →
  oget k (assign a b) =
    match oget k b with Some v => Some v | None => oget k a end.
Proof. intros. by rewrite oget_assign, oget_reverse_NoDup. Qed.

Lemma oget_spread2 {A} k (a b : obj A) :
  oget k (spread2 a b) =
    match oget k (spread b) with Some v => Some v | None => oget k (spread a) end.
Proof.
  unfold spread2, spread. rewrite !oget_assign.
  by destruct (oget k (reverse b)).
Qed.

(** *** The enumeration order of a declared table *)

Lemma insertIndex_Permutation {A} i k (v : A) o :
  insertIndex i k v o ≡ₚ (k, v) :: o.
Proof.
  induction o as [|[k' v'] o IH]; [done|]. simpl.
  destruct (arrayIndex k') as [i'|]; [|done].
  destruct (i' <? i)%N; [|done].
  rewrite IH. apply Permutation_swap.
Qed.

Lemma filter_insertIndex {A} i k (v : A) o :
  is_Some (arrayIndex k) →
  filter (λ entry, arrayIndex entry.1 = None) (insertIndex i k v o)
  = filter (λ entry, arrayIndex entry.1 = None) o.
Proof.
  intros [ik Hk].
  assert (∀ o' : obj A,
            filter (λ entry, arrayIndex entry.1 = None) ((k, v) :: o')
            = filter (λ entry, arrayIndex entry.1 = None) o') as Hskip.
  { intros o'. rewrite filter_cons. simpl. rewrite Hk.
    by destruct (decide (Some ik = None)). }
  induction o as [|[k' v'] o IH]; simpl; [by rewrite Hskip|].
  destruct (arrayIndex k') as [i'|] eqn:Hk'; [|by rewrite Hskip].
  destruct (i' <? i)%N; [|by rewrite Hskip].
  rewrite !filter_cons. simpl. rewrite Hk', IH.
  by destruct (decide (Some i' = None)).
Qed.

Lemma insertIndex_sorted {A} i k (v : A) o :
  arrayIndex k = Some i →
  StronglySorted enumeratedBefore o →
  StronglySorted enumeratedBefore (insertIndex i k v o).
Proof.
  intros Hk. induction o as [|[k' v'] o IH]; intros Hsorted; simpl.
  - repeat constructor.
  - apply StronglySorted_cons in Hsorted as [Hfirst Hsorted].
    destruct (arrayIndex k') as [i'|] eqn:Hk'.
    + destruct (i' <? i)%N eqn:Hlt.
      * apply StronglySorted_cons. split; [|by apply IH].
        rewrite insertIndex_Permutation. constructor; [|done].
        unfold enumeratedBefore. simpl. rewrite Hk', Hk.
        apply N.ltb_lt in Hlt. lia.
      * apply N.ltb_ge in Hlt.
        apply StronglySorted_cons. split; [|by apply StronglySorted_cons].
        constructor.
        { unfold enumeratedBefore. simpl. by rewrite Hk, Hk'. }
        eapply Forall_impl; [exact Hfirst|].
        intros [k2 v2]. unfold enumeratedBefore. simpl. rewrite Hk, Hk'.
        destruct (arrayIndex k2); [lia|done].
    + apply StronglySorted_cons. split; [|by apply StronglySorted_cons].
      constructor.
      { unfold enumeratedBefore. simpl. by rewrite Hk, Hk'. }
      eapply Forall_impl; [exact Hfirst|].
      intros [k2 v2]. unfold enumeratedBefore. simpl. rewrite Hk, Hk'.
      by destruct (arrayIndex k2).
Qed.

Lemma objectLiteral_snoc {A} (properties : list (string * A)) k v :
  objectLiteral (properties ++ [(k, v)])
  = defineProperty k v (objectLiteral properties).
Proof. unfold objectLiteral. by rewrite fold_left_app. Qed.

(** A literal with distinct names evaluates to an object with the same
    properties, enumerated array indices first, in ascending order, then the
    other names in the order of the literal. *)
Lemma objectLiteral_order {A} (properties : list (string * A)) :
  wfObj properties →
  objectLiteral properties ≡ₚ properties
  ∧ filter (λ entry, arrayIndex entry.1 = None) (objectLiteral properties)
    = filter (λ entry, arrayIndex entry.1 = None) properties
  ∧ StronglySorted enumeratedBefore (objectLiteral properties).
Proof.
  induction properties as [|[k v] properties IH] using rev_ind; intros Hwf.
  - split_and!; [done..|constructor].
  - unfold wfObj, okeys in Hwf. rewrite fmap_app in Hwf.
    apply NoDup_app in Hwf as (Hwf & Hfresh & _).
    destruct (IH Hwf) as (Hperm & Hrest & Hsorted).
    assert (k ∉ okeys (objectLiteral properties)) as Hk.
    { unfold okeys. rewrite Hperm. intros Hin.
      apply (Hfresh k Hin). simpl. set_solver. }
    rewrite objectLiteral_snoc. unfold defineProperty.
    destruct (arrayIndex k) as [i|] eqn:Hindex.
    + rewrite decide_False by done. split_and!.
      * rewrite insertIndex_Permutation, Hperm.
        by rewrite Permutation_app_comm.
      * rewrite filter_insertIndex by by rewrite Hindex.
        rewrite filter_app, Hrest, filter_cons. simpl. rewrite Hindex.
        destruct (decide (Some i = None)); [done|].
        by rewrite filter_nil, app_nil_r.
      * by apply insertIndex_sorted.
    + rewrite oset_fresh by done. split_and!.
      * by rewrite Hperm.
      * by rewrite !filter_app, Hrest.
      * apply StronglySorted_app_2; [|done|repeat constructor].
        intros [k1 v1] entry2 _ ->%list_elem_of_singleton.
        unfold enumeratedBefore. simpl. rewrite Hindex.
        by destruct (arrayIndex k1).
Qed.

(** Without an array index among its names, the object is enumerated in the
    order of the literal. *)
Lemma objectLiteral_declaration_order {A} (properties : list (string * A)) :
  wfObj properties →
  Forall (λ entry, arrayIndex entry.1 = None) properties →
  objectLiteral properties = properties.
Proof.
  induction properties as [|[k v] properties IH] using rev_ind;
    intros Hwf Hnames; [done|].
  unfold wfObj, okeys in Hwf. rewrite fmap_app in Hwf.
  apply NoDup_app in Hwf as (Hwf & Hfresh & _).
  apply Forall_app in Hnames as [Hnames Hk]. apply Forall_inv in Hk.
  simpl in Hk. rewrite objectLiteral_snoc, (IH Hwf Hnames).
  unfold defineProperty. rewrite Hk. apply oset_fresh.
  intros Hin. apply (Hfresh k Hin). simpl. set_solver.
Qed.

(** C3, as the specification states it, fails where a variant name is an
    array index: in the table declared as [{b: ..., 1: ...}] the variant
    [1] is declared last, but [for...in] enumerates it first, so that on the
    property both variants set the value of [b], 1, wins over the value of
    the later declared [1], 2, which a merge in declaration order would
    give. *)
Lemma C3_integer_like_name_is_merged_first :
  let c := Plain.styled 0 indexNamedConfig in
  let selection := objectLiteral [("b", VStr "on"); ("1", VStr "on")] in
  let r := Plain.computeStyles c (Some selection) emptyStore in
  okeys indexNamedVariants = ["b"; "1"]
  ∧ okeys (cVariants c) = ["1"; "b"]
  ∧ deref r.2 r.1 = Some [("root", [("padding", PNum 1)])]
  ∧ applyVariant "root" indexNamedVariants selection = [("padding", PNum 2)]
  ∧ applyVariant "root" (cVariants c) selection
    ≠ applyVariant "root" indexNamedVariants selection.
Proof. split_and!; [reflexivity..|discriminate]. Qed.

(** C3. Within a slot the merged style reads a property from the compound
    style if it has it, else from the variant style, else from the base
    style. The variant style is built in the order in which [for...in]
    enumerates the variant table, each later entry being merged on top of
    the earlier ones: for a table declared with distinct names, the names
    that are array indices first, in ascending order, then the other names
    in declaration order, which is the declaration order throughout when no
    name is an array index. The compound style is built in the order of the
    rule array, each later rule being merged on top; and on the example of
    the specification the padding of [root] is the compound rule's 32. *)
Theorem C3_merge_precedence (slot : string) (base : SlotStyles)
    (declared : list (string * option VariantValues))
    (rules : list CompoundVariant) (props : obj value) :
  wfObj declared →
  let variants := objectLiteral declared in
  (∀ k,
     oget k (computeSlotStyles slot base variants rules props) =
       match oget k (applyCompound slot rules props) with
       | Some v => Some v
       | None =>
           match oget k (applyVariant slot variants props) with
           | Some v => Some v
           | None => oget k (spread (default [] (slotOf slot (Some base))))
           end
       end)
  ∧ (∀ enumerated entry,
       applyVariant slot (enumerated ++ [entry]) props =
         match variantStyleFor slot props entry with
         | Some s => spread2 (applyVariant slot enumerated props) s
         | None => applyVariant slot enumerated props
         end)
  ∧ (variants ≡ₚ declared
     ∧ filter (λ entry, arrayIndex entry.1 = None) variants
       = filter (λ entry, arrayIndex entry.1 = None) declared
     ∧ StronglySorted enumeratedBefore variants)
  ∧ (Forall (λ entry, arrayIndex entry.1 = None) declared →
     variants = declared)
  ∧ (∀ cv,
       applyCompound slot (rules ++ [cv]) props =
         match compoundPatchFor slot props cv with
         | Some s => spread2 (applyCompound slot rules props) s
         | None => applyCompound slot rules props
         end)
  ∧ (∀ (a b : Styles) k,
       oget k (spread2 a b) =
         match oget k (spread b) with
         | Some v => Some v
         | None => oget k (spread a)
         end)
  ∧ (let c := Plain.styled 0 bigConfig in
     let r := Plain.computeStyles c (Some [("big", VBool true)]) emptyStore in
     deref r.2 r.1 = Some [("root", [("padding", PNum 32)])]).
Proof.
  intros Hwf variants. split_and!.
  - intros k. unfold computeSlotStyles, spread3.
    rewrite !oget_assign_NoDup
      by (apply NoDup_applyCompound || apply NoDup_applyVariant).
    done.
  - intros. apply applyVariant_snoc.
  - by apply objectLiteral_order.
  - by apply objectLiteral_order.
  - by apply objectLiteral_order.
  - intros Hnames. by apply objectLiteral_declaration_order.
  - intros. apply applyCompound_snoc.
  - intros. apply oget_spread2.
  - reflexivity.
Qed.

(** C3 at a table with the names [size], [2] and [tone], declared in this
    order: [2] is enumerated first, then [size] and [tone]. *)
Lemma C3_merge_precedence_witness :
  okeys
    (objectLiteral
       [("size", @None VariantValues); ("2", None); ("tone", None)])
  = ["2"; "size"; "tone"]
  ∧ StronglySorted enumeratedBefore
      (objectLiteral
         [("size", @None VariantValues); ("2", None); ("tone", None)]).
Proof.
  split; [reflexivity|].
  destruct (C3_merge_precedence "root" []
              [("size", None); ("2", None); ("tone", None)] [] [])
    as (_ & _ & (_ & _ & Hsorted) & _).
  - compute_done.
  - exact Hsorted.
Defined.

(** ** Compound matching (C6) *)

(** A rule matches exactly when every condition, normalized, is the
    normalized value read from the selection. *)
Lemma isMatch_true conds props :
  isMatch conds props = true ↔
  ∀ k c, (k, c) ∈ conds →
         normalizeVariantValue c = normalizeVariantValue (propOf k props).
Proof.
  unfold isMatch. induction conds as [|[k c] conds IH]; simpl.
  - split; [|done]. intros _ k c Hin. by apply elem_of_nil in Hin.
  - rewrite andb_true_iff, IH, bool_decide_eq_true. split.
    + intros [Hkc Hrest] k' c' [?|?]%elem_of_cons; simplify_eq; auto.
    + intros Hall. split; [apply Hall; left|].
      intros k' c' Hin. apply Hall. by right.
Qed.

(** A key missing from the selection prevents the match, unless the
    condition normalizes to the string that [String(undefined)] gives. *)
Lemma isMatch_missing_key conds props k c :
  (k, c) ∈ conds → oget k props = None →
  normalizeVariantValue c ≠ "undefined" →
  isMatch conds props = false.
Proof.
  intros Hin Hmiss Hc. apply not_true_is_false. intros Hm.
  apply Hc. rewrite (proj1 (isMatch_true _ _) Hm k c Hin).
  unfold propOf. by rewrite Hmiss.
Qed.

(** C6, at the failing input. The rule asks for [size] to be the string
    "undefined"; the selection has no [size]; the rule matches and its patch
    is merged, where a missing key should prevent the match. *)
Theorem C6_missing_key_matches_undefined_condition :
  let props : obj value := [] in
  let c := NVA.styled () [] 0 (ConfigObject undefinedRuleConfig) in
  let r := NVA.computeStyles c (Some props) emptyStore in
  oget "size" props = None
  ∧ isMatch (conditions undefinedRule) props = true
  ∧ applyCompound "root" [undefinedRule] props = [("padding", PNum 1)]
  ∧ deref r.2 r.1 = Some [("root", [("margin", PNum 0); ("padding", PNum 1)])].
Proof. split_and!; reflexivity. Qed.

(** ** Boolean variants (C7) *)

Lemma sameSelection_oset_bool name b props :
  sameSelection (oset name (VBool b) props)
    (oset name (VStr (if b then "true" else "false")) props).
Proof.
  intros k. rewrite !nget_oset. case_decide; [|done]. by destruct b.
Qed.

(** C7. A boolean selected for a variant is normalized to "true" or
    "false" before the lookup, so a table declared under those two keys is
    matched by the booleans: with an entry for the slot under the key of
    [b], selecting the boolean [b] merges that entry, for [false] as for
    [true]; and every slot resolves alike for the boolean and for its
    string. *)
Theorem C7_boolean_variant_distinct (slot name : string)
    (variantConfig : VariantValues) (b : bool) (slotStyles : SlotStyles)
    (style : Styles) :
  readOpt (if b then "true" else "false") variantConfig = Some slotStyles →
  oget slot slotStyles = Some (Some style) →
  normalizeVariantValue (VBool b) = (if b then "true" else "false")
  ∧ applyVariant slot [(name, Some variantConfig)] [(name, VBool b)]
    = spread style
  ∧ (∀ base variants rules props,
       computeSlotStyles slot base variants rules (oset name (VBool b) props)
       = computeSlotStyles slot base variants rules
           (oset name (VStr (if b then "true" else "false")) props))
  ∧ (∀ defaults,
       nget name (resolveProps defaults (Some [(name, VBool b)]))
       = Some (if b then "true" else "false")).
Proof.
  intros Hvalue Hslot. split_and!.
  - done.
  - unfold applyVariant. simpl. rewrite decide_True by done. simpl.
    rewrite Hvalue. simpl. by rewrite Hslot.
  - intros. apply computeSlotStyles_ext, sameSelection_oset_bool.
  - intros. rewrite nget_resolveProps_Some by (apply NoDup_singleton).
    unfold nget. simpl. by rewrite decide_True.
Qed.

(** C7 at the boolean [false]. *)
Lemma C7_boolean_variant_distinct_witness :
  applyVariant "root"
    [("big",
      Some [("true", Some [("root", Some [("padding", PNum 24)])]);
            ("false", Some [("root", Some [("padding", PNum 2)])])])]
    [("big", VBool false)]
  = [("padding", PNum 2)].
Proof.
  destruct (C7_boolean_variant_distinct "root" "big"
              [("true", Some [("root", Some [("padding", PNum 24)])]);
               ("false", Some [("root", Some [("padding", PNum 2)])])]
              false [("root", Some [("padding", PNum 2)])]
              [("padding", PNum 2)]) as (_ & Happly & _ & _).
  - reflexivity.
  - reflexivity.
  - exact Happly.
Defined.

(** ** Unknown variant names and values (C8) *)

Lemma fold_left_filter {A B} (f : A → B → A) (P : B → Prop)
    `{∀ x, Decision (P x)} (l : list B) (a : A) :
  (∀ a x, x ∈ l → ¬ P x → f a x = a) →
  fold_left f l a = fold_left f (filter P l) a.
Proof.
  revert a. induction l as [|x l IH]; intros a Hskip; [done|].
  rewrite filter_cons. simpl. case_decide as HP.
  - simpl. apply IH. intros ????. apply Hskip; [by right|done].
  - rewrite Hskip by (done || left). apply IH.
    intros ????. apply Hskip; [by right|done].
Qed.

Lemma elem_of_okeys {A} k (o : obj A) : k ∈ okeys o → ∃ v, (k, v) ∈ o.
Proof.
  unfold okeys. intros ([k' v] & -> & Hin)%list_elem_of_fmap. eauto.
Qed.

(** The row of an unknown entry adds nothing to the variant style. *)
Lemma applyVariant_unknown slot c name v props :
  unknownEntry c name v → oget name props = Some v →
  applyVariant slot (cVariants c) props
  = applyVariant slot (cVariants (forgetVariant name c)) props.
Proof.
  intros [Hrow _] Hget. unfold applyVariant. simpl.
  apply (fold_left_filter _ (λ entry, entry.1 ≠ name)).
  intros style [variantKey variantConfig] Hin Hname. simpl in Hname.
  apply dec_stable in Hname. subst variantKey. rewrite Hget.
  destruct (defined v); [|done]. simpl.
  destruct variantConfig as [variantConfig|]; [|done].
  by rewrite (Hrow _ Hin).
Qed.

(** The rules that test an unknown entry do not match. *)
Lemma applyCompound_unknown slot c name v props :
  unknownEntry c name v → oget name props = Some v →
  applyCompound slot (frozenCompoundVariants c) props
  = applyCompound slot (frozenCompoundVariants (forgetVariant name c)) props.
Proof.
  intros [_ Hrule] Hget. unfold applyCompound. simpl.
  apply (fold_left_filter _ (λ cv, name ∉ okeys (conditions cv))).
  intros style cv Hin Hname. apply dec_stable in Hname.
  apply elem_of_okeys in Hname as [condValue Hcond].
  destruct (isMatch (conditions cv) props) eqn:Hm; [|done].
  exfalso. apply (Hrule _ _ Hin Hcond).
  rewrite (proj1 (isMatch_true _ _) Hm _ _ Hcond).
  unfold propOf. by rewrite Hget.
Qed.

(** With typed rules and a declared variant, a value without table entry
    is an unknown entry; so is any value of an undeclared name that no rule
    tests. *)
Lemma unknownEntry_typed c name v variantConfig :
  rulesTyped c →
  (name, Some variantConfig) ∈ cVariants c →
  (∀ variantConfig,
     (name, Some variantConfig) ∈ cVariants c →
     readOpt (normalizeVariantValue v) variantConfig = None) →
  unknownEntry c name v.
Proof.
  intros Htyped Hrow Hnone. split; [done|].
  intros cv condValue Hcv Hcond Heq.
  destruct (Htyped _ _ _ Hcv Hcond _ Hrow) as [o Ho].
  rewrite Heq, (Hnone _ Hrow) in Ho. done.
Qed.

(** With own-property reads, an entry of the selection that the
    configuration does not know resolves every slot as if the configuration
    had neither the variant nor the rules that test it. *)
Lemma computeAllSlots_unknown c name v props :
  unknownEntry c name v →
  oget name props = Some v →
  computeAllSlots c props = computeAllSlots (forgetVariant name c) props.
Proof.
  intros Hunknown Hget. unfold computeAllSlots. simpl.
  apply fold_left_ext_in. intros result slot _. f_equal.
  unfold computeSlotStyles.
  by rewrite (applyVariant_unknown slot c name v),
    (applyCompound_unknown slot c name v).
Qed.

(** The scenario of the specification: the explicit, undeclared value
    ["xl"] replaces the default and finds no entry. *)
Example resolve_undeclared_value :
  let c := NVA.styled () [] 0 (ConfigObject sizeConfig) in
  let r := NVA.computeStyles c (Some [("size", VStr "xl")]) emptyStore in
  resolveProps (cDefaultVariants c) (Some [("size", VStr "xl")])
  = [("size", VStr "xl")]
  ∧ deref r.2 r.1 = Some [("root", [("padding", PNum 8)])]
  ∧ applyVariantInherited "root" (cVariants c) [("size", VStr "xl")]
    = Some [].
Proof. split_and!; reflexivity. Qed.

(** The read of [applyVariant] is the read of an own property unless the
    value names a function of [Object.prototype] and the slot is one of
    [name], [caller] and [arguments]. *)
Lemma readStyleForValue_own variantConfig normalizedValue slot :
  oget normalizedValue objectPrototypeFunctions = None
  ∨ slot ∉ ["name"; "caller"; "arguments"] →
  readStyleForValue variantConfig normalizedValue slot
  = match slotOf slot (readOpt normalizedValue variantConfig) with
    | Some style => OwnStyle style
    | None => NoStyle
    end.
Proof.
  intros Hown. unfold readStyleForValue, readOpt.
  destruct (oget normalizedValue variantConfig) as [own|]; [done|].
  destruct Hown as [->|Hslot]; [done|].
  destruct (oget normalizedValue objectPrototypeFunctions); [|done].
  destruct (decide (slot = "name")) as [->|_]; [set_solver|].
  destruct (decide (slot ∈ ["caller"; "arguments"])) as [Hin|_]; [|done].
  set_solver.
Qed.

(** [applyVariant] is what the code computes for the selections none of
    whose values names a function of [Object.prototype], and for the slots
    other than [name], [caller] and [arguments]. *)
Lemma applyVariantInherited_own slot variants props :
  (∀ name value,
     (name, value) ∈ props →
     oget (normalizeVariantValue value) objectPrototypeFunctions = None)
  ∨ slot ∉ ["name"; "caller"; "arguments"] →
  applyVariantInherited slot variants props
  = Some (applyVariant slot variants props).
Proof.
  intros Hown.
  induction variants as [|[variantKey variantConfig] variants IH]
    using rev_ind; [done|].
  rewrite applyVariant_snoc. unfold applyVariantInherited in *.
  rewrite fold_left_app, IH. unfold variantStyleFor. cbn [fold_left fst snd].
  destruct (oget variantKey props) as [value|] eqn:Hget; [|done].
  destruct (negb (defined value)); [done|].
  destruct variantConfig as [variantConfig|]; [|done].
  rewrite readStyleForValue_own.
  - by destruct (slotOf slot _).
  - destruct Hown as [Hvalues|Hslot]; [left|by right].
    apply (Hvalues variantKey). by apply oget_Some_elem.
Qed.

(** C8. A selection value that the variant table does not declare is merged
    all the same when it names a member that the table inherits: for the
    slot [name] and the value ["constructor"], the read
    [variantConfig["constructor"]?.["name"]] is the string ["Object"], which
    is truthy and is spread into the style of the slot character by
    character; for the slot [caller] the read throws. The undeclared value
    ["xl"], which names no inherited member, contributes nothing, as the
    unmatched values of a slot that is called otherwise do. *)
Theorem C8_inherited_member_is_merged :
  applyVariantInherited "name" nameSlotVariants [("size", VStr "constructor")]
  = Some [("0", PStr "O"); ("1", PStr "b"); ("2", PStr "j");
          ("3", PStr "e"); ("4", PStr "c"); ("5", PStr "t")]
  ∧ applyVariantInherited "caller" nameSlotVariants
      [("size", VStr "constructor")]
    = None
  ∧ applyVariantInherited "name" nameSlotVariants [("size", VStr "xl")]
    = Some []
  ∧ applyVariantInherited "root" nameSlotVariants
      [("size", VStr "constructor")]
    = Some [].
Proof. split_and!; reflexivity. Qed.

(** ** Util expansion (C9) *)

Lemma utilFree_Forall utils style :
  utilFree utils style ↔ Forall (λ k, inUtils k utils = false) (okeys style).
Proof.
  unfold utilFree, okeys. rewrite forallb_True, Forall_fmap.
  apply Forall_iff. intros [k v]. simpl.
  rewrite negb_True, Is_true_false. done.
Qed.

Lemma Forall_okeys_oset {A} (P : string → Prop) k (v : A) (o : obj A) :
  P k → Forall P (okeys o) → Forall P (okeys (oset k v o)).
Proof.
  intros Hk Ho. rewrite okeys_oset. case_decide; [done|].
  apply Forall_app. split; [done|]. by apply Forall_singleton.
Qed.

Lemma Forall_okeys_assign {A} (P : string → Prop) (a b : obj A) :
  Forall P (okeys a) → Forall P (okeys b) → Forall P (okeys (assign a b)).
Proof.
  intros Ha Hb. apply Forall_forall. intros k Hk.
  apply okeys_assign_subseteq, elem_of_app in Hk as [Hk|Hk];
    [eapply Forall_forall in Ha|eapply Forall_forall in Hb]; done.
Qed.

Lemma utilFree_nil utils : utilFree utils [].
Proof. done. Qed.

Lemma utilFree_assign utils a b :
  utilFree utils a → utilFree utils b → utilFree utils (assign a b).
Proof. rewrite !utilFree_Forall. apply Forall_okeys_assign. Qed.

Lemma utilFree_oset utils k v a :
  inUtils k utils = false → utilFree utils a → utilFree utils (oset k v a).
Proof.
  rewrite !utilFree_Forall.
  apply (Forall_okeys_oset (λ k, inUtils k utils = false)).
Qed.

Lemma expandUtils_snoc style k v utils :
  expandUtils (Some (style ++ [(k, v)])) utils =
    match oget k utils with
    | Some utilFn => assign (expandUtils (Some style) utils) (utilFn v)
    | None => oset k v (expandUtils (Some style) utils)
    end.
Proof. unfold expandUtils. by rewrite fold_left_app. Qed.

(** A style without util keys is copied as the object spread copies it. *)
Lemma expandUtils_utilFree_spread utils style :
  utilFree utils style → expandUtils (Some style) utils = spread style.
Proof.
  induction style as [|[k v] style IH] using rev_ind; [done|].
  intros Hfree. rewrite expandUtils_snoc.
  apply utilFree_Forall in Hfree. unfold okeys in Hfree.
  rewrite fmap_app, Forall_app in Hfree.
  destruct Hfree as [Hstyle Hk]. apply Forall_inv in Hk.
  simpl in Hk. unfold inUtils in Hk.
  destruct (oget k utils); [done|].
  unfold spread. rewrite assign_snoc. f_equal.
  apply IH. by apply utilFree_Forall.
Qed.

(** With closed utils the expansion leaves no util key. *)
Lemma expandUtils_closed_utilFree utils style :
  utilsClosed utils → utilFree utils (expandUtils style utils).
Proof.
  intros Hclosed. destruct style as [style|]; [|done].
  induction style as [|[k v] style IH] using rev_ind; [done|].
  rewrite expandUtils_snoc. destruct (oget k utils) as [utilFn|] eqn:Hk.
  - apply utilFree_assign; [done|].
    eapply Hclosed. by apply oget_Some_elem.
  - apply utilFree_oset; [|done]. unfold inUtils. by rewrite Hk.
Qed.

Lemma NoDup_expandUtils style utils : NoDup (okeys (expandUtils style utils)).
Proof.
  destruct style as [style|]; [|constructor].
  induction style as [|[k v] style IH] using rev_ind; [constructor|].
  rewrite expandUtils_snoc. destruct (oget k utils).
  - by apply NoDup_assign.
  - by apply NoDup_oset.
Qed.

Lemma utilFree_spread utils style :
  utilFree utils style → utilFree utils (spread style).
Proof. intros. by apply utilFree_assign. Qed.

(** C9, counterexample. The util [p] returns the util key [px]: expanding
    [{p: 4}] once leaves [px], expanding the result again replaces it. *)
Lemma C9_expansion_not_idempotent_for_nested_utils :
  let style := Some [("p", PNum 4)] in
  expandUtils (Some (expandUtils style nestedUtils)) nestedUtils
  ≠ expandUtils style nestedUtils.
Proof. vm_compute. discriminate. Qed.

(** C9, as amended. When no util returns a style with a util-named key, or
    when the style has no util-named key, expanding twice through the same
    util table gives what expanding once gives; and expansion copies a style
    without util-named keys unchanged. *)
Theorem C9_expandUtils_idempotent (utils : UtilsConfig)
    (style : option Styles) :
  utilsClosed utils ∨ utilFree utils (default [] style) →
  expandUtils (Some (expandUtils style utils)) utils = expandUtils style utils
  ∧ (utilFree utils (default [] style) → wfObj (default [] style) →
     expandUtils style utils = default [] style).
Proof.
  intros Hcase.
  assert (utilFree utils (expandUtils style utils)) as Hfree.
  { destruct Hcase as [Hclosed|Hfree];
      [by apply expandUtils_closed_utilFree|].
    destruct style as [style|]; [|done]. simpl in Hfree.
    rewrite (expandUtils_utilFree_spread utils style Hfree).
    by apply utilFree_spread. }
  split.
  - rewrite (expandUtils_utilFree_spread _ _ Hfree).
    apply spread_id, NoDup_expandUtils.
  - intros Hstyle Hwf. destruct style as [style|]; [|done]. simpl in Hstyle, Hwf.
    rewrite (expandUtils_utilFree_spread utils style Hstyle).
    by apply spread_id.
Qed.

Lemma pxUtils_closed : utilsClosed pxUtils.
Proof.
  intros name utilFn v Hin. apply list_elem_of_singleton in Hin.
  by simplify_eq.
Qed.

(** C9 at the util [px]. *)
Lemma C9_expandUtils_idempotent_witness :
  let style := Some [("px", PNum 10); ("margin", PNum 2)] in
  expandUtils (Some (expandUtils style pxUtils)) pxUtils
  = [("paddingLeft", PNum 10); ("paddingRight", PNum 10); ("margin", PNum 2)].
Proof.
  intros style.
  destruct (C9_expandUtils_idempotent pxUtils style) as [Hidem _].
  - left. exact pxUtils_closed.
  - etrans; [exact Hidem|]. reflexivity.
Defined.

(** ** No util key in a resolved style (C5) *)

Lemma Forall_oset {A} (Q : string * A → Prop) k v (o : obj A) :
  Q (k, v) → Forall Q o → Forall Q (oset k v o).
Proof.
  intros Hkv. induction 1 as [|[k' v'] o Hx Ho IH]; simpl.
  - by apply Forall_singleton.
  - case_decide; constructor; auto.
Qed.

Lemma fold_left_invariant {A B} (I : A → Prop) (f : A → B → A)
    (l : list B) (acc : A) :
  (∀ acc x, x ∈ l → I acc → I (f acc x)) → I acc → I (fold_left f l acc).
Proof.
  revert acc. induction l as [|x l IH]; intros acc Hf Hacc; [done|]. simpl.
  apply IH.
  - intros ????. apply Hf; [by right|done].
  - apply Hf; [left|done].
Qed.






Section merge_closed.
Context (P : Styles → Prop).
Context (P_nil : P []) (P_assign : ∀ a b, P a → P b → P (assign a b)).




End merge_closed.





(** ** The two declaration paths (C10) *)

Lemma okeys_omap_subseteq {A B} (g : A → option B) (l : obj A) :
  okeys (omap (λ kv, (kv.1,.) <$> g kv.2) l) ⊆ okeys l.
Proof.
  unfold okeys. intros k ([k' x] & -> & Hin)%list_elem_of_fmap.
  apply list_elem_of_omap in Hin as ([k'' v] & Hin & Hg). simpl in Hg.
  destruct (g v); simplify_eq/=.
  apply list_elem_of_fmap. by exists (k', v).
Qed.

(** A loop that sets one key per entry of an object with distinct keys
    builds the list of what it sets. *)
Lemma fold_oset_omap {A B} (f : obj B → string * A → obj B)
    (g : A → option B) (l : obj A) :
  (∀ r kv, f r kv = match g kv.2 with Some x => oset kv.1 x r | None => r end) →
  NoDup (okeys l) →
  fold_left f l [] = omap (λ kv, (kv.1,.) <$> g kv.2) l.
Proof.
  intros Hf. unfold okeys.
  induction l as [|[k v] l IH] using rev_ind; [done|].
  rewrite fmap_app, NoDup_app. intros (Hnd & Hdisj & _).
  rewrite fold_left_app, omap_app, IH by done. simpl. rewrite Hf. simpl.
  destruct (g v) as [x|]; simpl; [|by rewrite app_nil_r].
  apply oset_fresh. intros Hin%okeys_omap_subseteq.
  apply (Hdisj _ Hin). simpl. left.
Qed.

Lemma oget_omap_values {A B} (g : A → option B) (l : obj A) k :
  NoDup (okeys l) →
  oget k (omap (λ kv, (kv.1,.) <$> g kv.2) l) =
    match oget k l with Some v => g v | None => None end.
Proof.
  unfold okeys. induction l as [|[k' v'] l IH]; [done|].
  rewrite fmap_cons, NoDup_cons. intros [Hk' Hnd]. simpl in Hk'.
  rewrite omap_cons_eq. cbn [fst snd oget].
  destruct (decide (k = k')) as [->|Hne].
  - destruct (g v') as [x|]; cbn [fmap option_fmap option_map oget];
      [by rewrite decide_True|].
    rewrite IH by done. apply oget_None in Hk'. by rewrite Hk'.
  - destruct (g v') as [x|]; cbn [fmap option_fmap option_map oget];
      [rewrite decide_False by done|]; auto.
Qed.

Lemma distinctKeys_NoDup {A} (o : obj A) : distinctKeys o → NoDup (okeys o).
Proof. apply bool_decide_unpack. Qed.

Lemma wfStyle_expandUtils utils style :
  wfStyle utils style → expandUtils style utils = default [] style.
Proof.
  destruct style as [style|]; [|done]. unfold wfStyle.
  intros [Hnd%distinctKeys_NoDup Hfree]%andb_prop_elim.
  rewrite (expandUtils_utilFree_spread utils style Hfree). by apply spread_id.
Qed.

Lemma expandSlots_omap o utils :
  distinctKeys o →
  expandSlots o utils
  = omap (λ kv, (kv.1,.) <$> Some (Some (expandUtils kv.2 utils))) o.
Proof.
  intros Hnd%distinctKeys_NoDup. unfold expandSlots.
  by apply (fold_oset_omap _ (λ s, Some (Some (expandUtils s utils)))).
Qed.

(** What the slot lookup finds in expanded slot styles: the raw style
    unchanged, and the empty style for a slot that holds [undefined]. *)
Lemma slotOf_expandSlots utils o slot :
  wfSlotStyles utils o →
  slotOf slot (Some (expandSlots o utils)) =
    match oget slot o with
    | Some (Some style) => Some style
    | Some None => Some []
    | None => None
    end.
Proof.
  intros [Hd Hall]%andb_prop_elim. rewrite expandSlots_omap by done. simpl.
  rewrite (oget_omap_values (λ s, Some (Some (expandUtils s utils))))
    by by apply distinctKeys_NoDup.
  destruct (oget slot o) as [style|] eqn:Hget; [|done].
  apply oget_Some_elem in Hget. apply forallb_True in Hall.
  eapply Forall_forall in Hall; [|done]. simpl in Hall.
  rewrite wfStyle_expandUtils by done. by destruct style.
Qed.

Lemma mergesAlike_spread2 (acc : Styles) x y :
  NoDup (okeys acc) → mergesAlike x y →
  match x with Some s => spread2 acc s | None => acc end
  = match y with Some s => spread2 acc s | None => acc end.
Proof.
  intros Hnd [->|[-> ->]]; [done|]. unfold spread2. simpl. by apply spread_id.
Qed.

Lemma slotOf_expandSlots_alike utils o slot :
  wfSlotStyles utils o →
  mergesAlike (slotOf slot (Some (expandSlots o utils))) (slotOf slot (Some o)).
Proof.
  intros Hwf. rewrite slotOf_expandSlots by done. simpl.
  destruct (oget slot o) as [[style|]|]; [by left|by right|by left].
Qed.

Lemma mergesAlike_default x y : mergesAlike x y → default [] x = default [] y.
Proof. by intros [->|[-> ->]]. Qed.

Lemma expandBaseUtils_slot utils base slot :
  wfSlotStyles utils (default [] base) →
  default [] (slotOf slot (Some (expandBaseUtils base utils)))
  = default [] (slotOf slot (Some (default [] base))).
Proof.
  destruct base as [o|]; [|done]. intros Hwf.
  by apply mergesAlike_default, slotOf_expandSlots_alike.
Qed.

Lemma expandVariantValues_omap utils (values : VariantValues) :
  distinctKeys values →
  fold_left
    (λ acc ventry,
       match ventry.2 with
       | None => acc
       | Some slots => oset ventry.1 (Some (expandSlots slots utils)) acc
       end) values []
  = omap (λ ventry,
            (ventry.1,.) <$>
              match ventry.2 with
              | Some slots => Some (Some (expandSlots slots utils))
              | None => None
              end) values.
Proof.
  intros Hnd%distinctKeys_NoDup.
  apply (fold_oset_omap _
           (λ o, match o with
                 | Some slots => Some (Some (expandSlots slots utils))
                 | None => None
                 end)); [|done].
  by intros r [k [slots|]].
Qed.

(** The expanded entry for a value, in terms of the raw one. *)
Lemma readOpt_expanded utils (values : VariantValues) key :
  distinctKeys values →
  readOpt key
    (fold_left
       (λ acc ventry,
          match ventry.2 with
          | None => acc
          | Some slots => oset ventry.1 (Some (expandSlots slots utils)) acc
          end) values [])
  = (λ slots, expandSlots slots utils) <$> readOpt key values.
Proof.
  intros Hd. rewrite expandVariantValues_omap by done. unfold readOpt.
  rewrite (oget_omap_values
             (λ o, match o with
                   | Some slots => Some (Some (expandSlots slots utils))
                   | None => None
                   end)) by by apply distinctKeys_NoDup.
  by destruct (oget key values) as [[slots|]|].
Qed.

Lemma readOpt_Some_elem {A} key (o : obj (option A)) x :
  readOpt key o = Some x → (key, Some x) ∈ o.
Proof.
  unfold readOpt. destruct (oget key o) as [y|] eqn:Hget; [|done].
  intros ->. by apply oget_Some_elem.
Qed.

Lemma variantStyleFor_expanded utils slot props key (values : VariantValues) :
  wfVariantValues utils values →
  mergesAlike
    (variantStyleFor slot props
       (key,
        Some
          (fold_left
             (λ acc ventry,
                match ventry.2 with
                | None => acc
                | Some slots => oset ventry.1 (Some (expandSlots slots utils)) acc
                end) values [])))
    (variantStyleFor slot props (key, Some values)).
Proof.
  intros [Hd Hall]%andb_prop_elim. unfold variantStyleFor.
  cbn [fst snd]. destruct (oget key props) as [v|]; [|by left].
  destruct (negb (defined v)); [by left|].
  rewrite readOpt_expanded by done.
  destruct (readOpt (normalizeVariantValue v) values) as [slots|] eqn:Hread;
    [|by left].
  apply readOpt_Some_elem in Hread. apply forallb_True in Hall.
  eapply Forall_forall in Hall; [|done]. simpl in Hall.
  by apply slotOf_expandSlots_alike.
Qed.

Lemma expandVariantsUtils_omap utils (variants : Variants) :
  distinctKeys variants →
  expandVariantsUtils (Some variants) utils
  = omap (λ entry,
            (entry.1,.) <$>
              match entry.2 with
              | Some values =>
                  Some
                    (Some
                       (fold_left
                          (λ acc ventry,
                             match ventry.2 with
                             | None => acc
                             | Some slots =>
                                 oset ventry.1 (Some (expandSlots slots utils))
                                   acc
                             end) values []))
              | None => None
              end) variants.
Proof.
  intros Hnd%distinctKeys_NoDup. unfold expandVariantsUtils.
  apply (fold_oset_omap _
           (λ o, match o with
                 | Some values =>
                     Some
                       (Some
                          (fold_left
                             (λ acc ventry,
                                match ventry.2 with
                                | None => acc
                                | Some slots =>
                                    oset ventry.1
                                      (Some (expandSlots slots utils)) acc
                                end) values []))
                 | None => None
                 end)); [|done].
  by intros r [k [values|]].
Qed.

(** The variant style is the same on the expanded table as on the raw
    one. *)
Lemma applyVariant_expanded utils slot (variants : Variants) props :
  forallb (wfVariantEntry utils) variants →
  applyVariant slot
    (omap (λ entry,
             (entry.1,.) <$>
               match entry.2 with
               | Some values =>
                   Some
                     (Some
                        (fold_left
                           (λ acc ventry,
                              match ventry.2 with
                              | None => acc
                              | Some slots =>
                                  oset ventry.1 (Some (expandSlots slots utils))
                                    acc
                              end) values []))
               | None => None
               end) variants) props
  = applyVariant slot variants props.
Proof.
  induction variants as [|[key values] variants IH] using rev_ind; [done|].
  rewrite forallb_app. intros [Hvs [He _]%andb_prop_elim]%andb_prop_elim.
  rewrite omap_app, applyVariant_snoc. cbn [fst snd].
  destruct values as [values|].
  - rewrite omap_cons_eq. cbn [fst snd fmap option_fmap option_map omap list_omap].
    rewrite applyVariant_snoc, IH by done.
    apply mergesAlike_spread2; [apply NoDup_applyVariant|].
    by apply variantStyleFor_expanded.
  - rewrite omap_cons_eq. cbn [fst snd fmap option_fmap option_map omap list_omap].
    rewrite app_nil_r, IH by done.
    unfold variantStyleFor. cbn [fst snd].
    destruct (oget key props) as [v|]; [|done]. by destruct (negb (defined v)).
Qed.

Lemma compoundPatchFor_expanded utils slot props cv :
  wfRule utils cv →
  mergesAlike
    (compoundPatchFor slot props
       {| css := Some match css cv with
                      | Some css => expandSlots css utils
                      | None => []
                      end;
          conditions := spread (conditions cv) |})
    (compoundPatchFor slot props cv).
Proof.
  intros [Hd Hcss]%andb_prop_elim. unfold compoundPatchFor. cbn [css conditions].
  rewrite spread_id by by apply distinctKeys_NoDup.
  destruct (isMatch (conditions cv) props); [|by left].
  destruct (css cv) as [o|]; [by apply slotOf_expandSlots_alike|by left].
Qed.

Lemma applyCompound_expanded utils slot rules props :
  forallb (wfRule utils) rules →
  applyCompound slot (expandCompoundUtils (Some rules) utils) props
  = applyCompound slot rules props.
Proof.
  unfold expandCompoundUtils.
  induction rules as [|cv rules IH] using rev_ind; [done|].
  rewrite forallb_app. intros [Hrs [Hr _]%andb_prop_elim]%andb_prop_elim.
  rewrite map_app. simpl. rewrite !applyCompound_snoc, IH by done.
  apply mergesAlike_spread2; [apply NoDup_applyCompound|].
  by apply compoundPatchFor_expanded.
Qed.

Lemma applyVariant_expandVariantsUtils utils slot variants props :
  distinctKeys (default [] variants) →
  forallb (wfVariantEntry utils) (default [] variants) →
  applyVariant slot (expandVariantsUtils variants utils) props
  = applyVariant slot (default [] variants) props.
Proof.
  destruct variants as [variants|]; [|done]. intros Hd Hall.
  rewrite expandVariantsUtils_omap by done. by apply applyVariant_expanded.
Qed.

Lemma applyCompound_expandCompoundUtils utils slot rules props :
  forallb (wfRule utils) (default [] rules) →
  applyCompound slot (expandCompoundUtils rules utils) props
  = applyCompound slot (default [] rules) props.
Proof.
  destruct rules as [rules|]; [|done]. apply applyCompound_expanded.
Qed.

Lemma computeSlotStyles_expanded utils slot config props :
  wfConfig utils config →
  computeSlotStyles slot (expandBaseUtils (base config) utils)
    (expandVariantsUtils (variants config) utils)
    (expandCompoundUtils (compoundVariants config) utils) props
  = computeSlotStyles slot (default [] (base config))
      (default [] (variants config)) (default [] (compoundVariants config))
      props.
Proof.
  intros [[[Hbase Hdistinct]%andb_prop_elim Hvariants]%andb_prop_elim
            Hrules]%andb_prop_elim.
  unfold computeSlotStyles.
  rewrite (expandBaseUtils_slot utils (base config) slot Hbase).
  rewrite (applyVariant_expandVariantsUtils utils slot (variants config) props
             Hdistinct Hvariants).
  by rewrite (applyCompound_expandCompoundUtils utils slot
                (compoundVariants config) props Hrules).
Qed.

(** On a well-formed configuration without util keys, the closure of the
    themed [styled] computes what the closure of the plain [styled]
    computes. *)
Lemma computeAllSlots_styled {Theme} (theme : Theme) utils ref config props :
  wfConfig utils config →
  computeAllSlots (NVA.styled theme utils ref (ConfigObject config)) props
  = computeAllSlots (Plain.styled ref config) props.
Proof.
  intros Hwf. unfold computeAllSlots.
  apply fold_left_ext_in. intros result slot _. f_equal.
  by apply computeSlotStyles_expanded.
Qed.

(** The two [computeStyles] are the same code over their two stores. *)
Lemma computeStyles_agree c1 c2 props st :
  configRef c1 = configRef c2 →
  cDefaultVariants c1 = cDefaultVariants c2 →
  (∀ resolvedProps,
     computeAllSlots c1 resolvedProps = computeAllSlots c2 resolvedProps) →
  Plain.computeStyles c1 props st = NVA.computeStyles c2 props st.
Proof.
  intros Href Hdefaults Hall. unfold Plain.computeStyles, NVA.computeStyles.
  by rewrite Href, Hdefaults, Hall.
Qed.

Lemma runCalls_agree (call1 call2 : option (obj value) → Store → nat * Store)
    calls st :
  (∀ props st, call1 props st = call2 props st) →
  runCalls call1 calls st = runCalls call2 calls st.
Proof.
  intros Hcall. revert st. induction calls as [|props calls IH]; intros st;
    [done|].
  simpl. rewrite Hcall. destruct (call2 props st) as [l st'].
  by rewrite IH.
Qed.

(** C10. For every configuration whose objects have distinct keys and whose
    styles use no util name as key (every configuration, for the empty util
    table of [createNVA({})]), the resolver of the plain [styled] and the
    resolver of [createNVA(...).styled] answer every sequence of calls
    alike: the same references and the same stores, hence deeply equal
    style sets for every selection. *)
Theorem C10_plain_and_themed_styled_agree {Theme : Type} (theme : Theme)
    (utils : UtilsConfig) (ref : nat) (config : Config)
    (calls : list (option (obj value))) :
  wfConfig utils config →
  runCalls (Plain.computeStyles (Plain.styled ref config)) calls emptyStore
  = runCalls
      (NVA.computeStyles (NVA.styled theme utils ref (ConfigObject config)))
      calls emptyStore
  ∧ (∀ props,
       computeAllSlots (Plain.styled ref config)
         (resolveProps (cDefaultVariants (Plain.styled ref config)) props)
       = computeAllSlots (NVA.styled theme utils ref (ConfigObject config))
           (resolveProps
              (cDefaultVariants
                 (NVA.styled theme utils ref (ConfigObject config))) props)).
Proof.
  intros Hwf. split.
  - apply runCalls_agree. intros props st.
    apply computeStyles_agree; [done|done|].
    intros resolvedProps. symmetry. by apply computeAllSlots_styled.
  - intros props. symmetry. by apply computeAllSlots_styled.
Qed.

(** C10 at three calls on the configuration with a boolean variant and a
    compound rule, for the empty util table. *)
Lemma C10_plain_and_themed_styled_agree_witness :
  let calls := [None; Some [("big", VBool true)]; Some [("big", VStr "false")]] in
  (runCalls (NVA.computeStyles (NVA.styled () [] 0 (ConfigObject bigConfig)))
     calls emptyStore).1
  = [0; 1; 2]
  ∧ objects
      (runCalls (NVA.computeStyles (NVA.styled () [] 0 (ConfigObject bigConfig)))
         calls emptyStore).2
    = [[("root", [("padding", PNum 8)])];
       [("root", [("padding", PNum 32)])];
       [("root", [("padding", PNum 2)])]].
Proof.
  intros calls.
  destruct (C10_plain_and_themed_styled_agree () [] 0 bigConfig calls)
    as [Hrun _].
  - reflexivity.
  - rewrite <-Hrun. split; reflexivity.
Defined.

(** * Properties of the further code *)

(** ** [cn] *)

Lemma flattenStyle_array items :
  flattenStyle (SIArray items) = flat_map flattenStyle items.
Proof.
  induction items as [|item items IH]; [done|].
  change (flattenStyle (SIArray (item :: items))) with
    (match item with
     | SIFalsy => flattenStyle (SIArray items)
     | SIArray _ => flattenStyle item ++ flattenStyle (SIArray items)
     | SIObject o => FObject o :: flattenStyle (SIArray items)
     | SIOther => FOther :: flattenStyle (SIArray items)
     end).
  rewrite IH. by destruct item.
Qed.

Lemma flat_map_app_list {A B} (f : A → list B) (l1 l2 : list A) :
  flat_map f (l1 ++ l2) = flat_map f l1 ++ flat_map f l2.
Proof.
  induction l1 as [|x l1 IH]; [done|]. simpl. by rewrite IH, (assoc_L (++)).
Qed.

Lemma cnFlattened_flat_map styles :
  cnFlattened styles = flat_map cnEntry styles.
Proof.
  unfold cnFlattened.
  assert (∀ acc,
            fold_left
              (λ flattened style,
                 match style with
                 | SIFalsy => flattened
                 | SIArray _ => flattened ++ flattenStyle style
                 | SIObject o => flattened ++ [FObject o]
                 | SIOther => flattened
                 end) styles acc
            = acc ++ flat_map cnEntry styles) as Hgen; [|apply Hgen].
  induction styles as [|style styles IH]; intros acc; simpl.
  - by rewrite app_nil_r.
  - rewrite IH. destruct style; simpl; by rewrite ?app_nil_r, <-?(assoc_L (++)).
Qed.

Lemma flatObjects_app l1 l2 :
  flatObjects (l1 ++ l2) = flatObjects l1 ++ flatObjects l2.
Proof. apply omap_app. Qed.

Lemma lastDefined_snoc k objects o :
  lastDefined k (objects ++ [o]) =
    match definedGet k o with
    | Some v => Some v
    | None => lastDefined k objects
    end.
Proof. unfold lastDefined. by rewrite fold_left_app. Qed.

Lemma lastDefined_app k l1 l2 :
  lastDefined k (l1 ++ l2) =
    match lastDefined k l2 with
    | Some v => Some v
    | None => lastDefined k l1
    end.
Proof.
  induction l2 as [|o l2 IH] using rev_ind.
  - by rewrite app_nil_r.
  - rewrite (assoc_L (++)), !lastDefined_snoc, IH.
    by destruct (definedGet k o).
Qed.

Lemma definedGet_oset k k' v o :
  definedGet k (oset k' (Some v) o) =
    if decide (k = k') then Some v else definedGet k o.
Proof. unfold definedGet. rewrite oget_oset. by case_decide. Qed.

Lemma definedGet_copy_step k key style (result : StyleObject) :
  definedGet k
    match oget key style with
    | Some (Some value) => oset key (Some value) result
    | _ => result
    end
  = if decide (k = key) then
      match definedGet k style with
      | Some v => Some v
      | None => definedGet k result
      end
    else definedGet k result.
Proof.
  case_decide as Hk.
  - subst key. unfold definedGet at 2.
    destruct (oget k style) as [[v|]|]; [|done..].
    by rewrite definedGet_oset, decide_True.
  - destruct (oget key style) as [[v|]|]; [|done..].
    by rewrite definedGet_oset, decide_False.
Qed.

(** After the inner loop of [mergeStyles], a property defined by the style
    has the value the style gives it; another keeps its value. *)
Lemma definedGet_copyDefined k style result :
  definedGet k (copyDefined style result) =
    match definedGet k style with
    | Some v => Some v
    | None => definedGet k result
    end.
Proof.
  unfold copyDefined.
  assert (∀ keys result,
            definedGet k
              (fold_left
                 (λ result key,
                    match oget key style with
                    | Some (Some value) => oset key (Some value) result
                    | _ => result
                    end) keys result)
            = if decide (k ∈ keys) then
                match definedGet k style with
                | Some v => Some v
                | None => definedGet k result
                end
              else definedGet k result) as Hgen.
  { intros keys. induction keys as [|key keys IH]; intros acc; [done|].
    simpl. rewrite IH, definedGet_copy_step.
    destruct (decide (k = key)) as [->|Hne].
    - rewrite (decide_True (P := key ∈ key :: keys)) by left.
      case_decide; by destruct (definedGet key style).
    - destruct (decide (k ∈ keys)), (decide (k ∈ key :: keys)); try done;
        set_solver. }
  rewrite Hgen. case_decide as Hk; [done|].
  apply oget_None in Hk.
  assert (definedGet k style = None) as ->; [|done].
  unfold definedGet. by rewrite Hk.
Qed.

Lemma mergeStyles_loop_definedGet k styles result :
  definedGet k
    (fold_left
       (λ result style,
          match style with
          | FObject o => copyDefined o result
          | FOther => result
          end) styles result)
  = match lastDefined k (flatObjects styles) with
    | Some v => Some v
    | None => definedGet k result
    end.
Proof.
  induction styles as [|style styles IH] using rev_ind; [done|].
  rewrite fold_left_app, flatObjects_app. destruct style as [o|].
  - change (flatObjects [FObject o]) with [o]. rewrite lastDefined_snoc.
    simpl. rewrite definedGet_copyDefined, IH. by destruct (definedGet k o).
  - change (flatObjects [FOther]) with (@nil StyleObject).
    by rewrite app_nil_r.
Qed.

Lemma mergeStyles_definedGet k styles :
  definedGet k (mergeStyles styles) = lastDefined k (flatObjects styles).
Proof.
  assert (definedGet k
            (fold_left
               (λ result style,
                  match style with
                  | FObject o => copyDefined o result
                  | FOther => result
                  end) styles [])
          = lastDefined k (flatObjects styles)) as Hloop.
  { rewrite mergeStyles_loop_definedGet.
    by destruct (lastDefined k (flatObjects styles)). }
  destruct styles as [|[o|] [|style styles]]; try done.
  simpl. unfold lastDefined. simpl. by destruct (definedGet k o).
Qed.

Lemma cnFlattened_app l1 l2 :
  cnFlattened (l1 ++ l2) = cnFlattened l1 ++ cnFlattened l2.
Proof. rewrite !cnFlattened_flat_map. apply flat_map_app_list. Qed.

Lemma flatObjects_cnEntry style :
  flatObjects (cnEntry style) = flatObjects (flattenStyle style).
Proof. by destruct style. Qed.

Lemma flatObjects_cnFlattened styles :
  flatObjects (cnFlattened styles)
  = flatObjects (flattenStyle (SIArray styles)).
Proof.
  rewrite cnFlattened_flat_map, flattenStyle_array.
  induction styles as [|style styles IH]; [done|].
  simpl. by rewrite !flatObjects_app, IH, flatObjects_cnEntry.
Qed.

Lemma cn_definedGet k styles :
  definedGet k (cn styles) = lastDefined k (flatObjects (cnFlattened styles)).
Proof. apply mergeStyles_definedGet. Qed.

Lemma copyDefined_clean style result :
  Forall (λ kv, is_Some kv.2) result ∧ NoDup (okeys result) →
  Forall (λ kv, is_Some kv.2) (copyDefined style result)
  ∧ NoDup (okeys (copyDefined style result)).
Proof.
  unfold copyDefined.
  apply (fold_left_invariant
           (λ result : StyleObject,
              Forall (λ kv, is_Some kv.2) result ∧ NoDup (okeys result))).
  intros acc key _ [Hall Hnd].
  destruct (oget key style) as [[value|]|]; [|done..].
  split; [apply Forall_oset; eauto|by apply NoDup_oset].
Qed.

Lemma mergeStyles_loop_clean styles :
  Forall (λ kv, is_Some kv.2)
    (fold_left
       (λ result style,
          match style with
          | FObject o => copyDefined o result
          | FOther => result
          end) styles [])
  ∧ NoDup
      (okeys
         (fold_left
            (λ (result : StyleObject) style,
               match style with
               | FObject o => copyDefined o result
               | FOther => result
               end) styles [])).
Proof.
  apply (fold_left_invariant
           (λ result : StyleObject,
              Forall (λ kv, is_Some kv.2) result ∧ NoDup (okeys result))).
  - intros acc [o|] _ Hacc; [by apply copyDefined_clean|done].
  - split; constructor.
Qed.

Lemma mergeStyles_oget k styles :
  oget k (mergeStyles styles)
  = match styles with
    | [FObject o] => oget k o
    | _ => Some <$> lastDefined k (flatObjects styles)
    end.
Proof.
  assert (oget k
            (fold_left
               (λ result style,
                  match style with
                  | FObject o => copyDefined o result
                  | FOther => result
                  end) styles [])
          = Some <$> lastDefined k (flatObjects styles)) as Hloop.
  { destruct (mergeStyles_loop_clean styles) as [Hall _].
    pose proof (mergeStyles_loop_definedGet k styles []) as Hget.
    assert (definedGet k [] = None) as Hnil by done.
    rewrite Hnil in Hget. clear Hnil.
    assert (match lastDefined k (flatObjects styles) with
            | Some v => Some v
            | None => None
            end = lastDefined k (flatObjects styles)) as Hid
      by by destruct (lastDefined k (flatObjects styles)).
    rewrite Hid in Hget. clear Hid. rewrite <-Hget. unfold definedGet.
    destruct (oget k _) as [[v|]|] eqn:Hk; [done| |done].
    apply oget_Some_elem in Hk. eapply Forall_forall in Hall; [|exact Hk].
    by destruct Hall. }
  destruct styles as [|[o|] [|style styles]]; try done.
Qed.

Lemma cnEntry_not_other style :
  style ≠ SIOther → cnEntry style = flattenStyle style.
Proof. by destruct style. Qed.

Lemma cnFlattened_array_inline l1 l2 l3 :
  Forall (λ style, style ≠ SIOther) l2 →
  cnFlattened (l1 ++ [SIArray l2] ++ l3) = cnFlattened (l1 ++ l2 ++ l3).
Proof.
  intros Hl2. rewrite !cnFlattened_app. f_equal. f_equal.
  rewrite !cnFlattened_flat_map.
  change (flat_map cnEntry [SIArray l2]) with (flattenStyle (SIArray l2) ++ []).
  rewrite app_nil_r, flattenStyle_array.
  induction Hl2 as [|style l2 Hstyle _ IH]; [done|].
  simpl. by rewrite IH, cnEntry_not_other.
Qed.

Lemma cnFlattened_dropped styles :
  Forall (λ style, cnEntry style = []) styles → cnFlattened styles = [].
Proof.
  intros Hall. rewrite cnFlattened_flat_map.
  induction Hall as [|style styles Hstyle _ IH]; [done|].
  simpl. by rewrite Hstyle, IH.
Qed.

(** X1. The value other than [undefined] that the result of [cn] gives a
    property is the one given by the last style object, in left-to-right,
    depth-first order of the arguments, that gives the property such a
    value. When exactly one item is left after flattening and it is an
    object, the result is that object and reads as it does; in every other
    case the property is present exactly when some object gives it a value
    other than [undefined]. For two objects the value is read from the
    second if it defines the property and from the first otherwise. *)
Theorem X1_cn_last_defined_wins (styles : list StyleInput) (a b : StyleObject)
    (k : string) :
  definedGet k (cn styles)
  = lastDefined k (flatObjects (flattenStyle (SIArray styles)))
  ∧ oget k (cn styles)
    = match cnFlattened styles with
      | [FObject o] => oget k o
      | _ =>
          Some <$> lastDefined k (flatObjects (flattenStyle (SIArray styles)))
      end
  ∧ oget k (cn [SIObject a; SIObject b])
    = Some <$> match definedGet k b with
               | Some v => Some v
               | None => definedGet k a
               end.
Proof.
  split_and!.
  - by rewrite cn_definedGet, flatObjects_cnFlattened.
  - unfold cn. rewrite mergeStyles_oget, <-flatObjects_cnFlattened.
    by destruct (cnFlattened styles) as [|[o|] [|style flattened]].
  - unfold cn. rewrite mergeStyles_oget.
    change (cnFlattened [SIObject a; SIObject b]) with [FObject a; FObject b].
    change (flatObjects [FObject a; FObject b]) with [a; b].
    unfold lastDefined. cbn [fold_left].
    by destruct (definedGet k b), (definedGet k a).
Qed.

(** X2. [flattenStyle] splices a nested array in place and drops falsy
    items, at any depth; so [cn] gives every property the same value other
    than [undefined] whether styles are passed as arguments or grouped in an
    array, and returns the same style altogether when none of the grouped
    items is itself a truthy value that is neither an object nor an array.
    Such a value is skipped as an argument but kept as an item of an array:
    [cn(5, {a: undefined})] is the object [{a: undefined}] and
    [cn([5, {a: undefined}])] is [{}]. *)
Theorem X2_flattenStyle_splices_nested_arrays
    (l1 l2 l3 : list StyleInput) :
  flattenStyle (SIArray (l1 ++ [SIArray l2] ++ l3))
  = flattenStyle (SIArray (l1 ++ l2 ++ l3))
  ∧ flattenStyle (SIArray (l1 ++ [SIFalsy] ++ l3))
    = flattenStyle (SIArray (l1 ++ l3))
  ∧ (∀ k,
       definedGet k (cn (l1 ++ [SIArray l2] ++ l3))
       = definedGet k (cn (l1 ++ l2 ++ l3)))
  ∧ (Forall (λ style, style ≠ SIOther) l2 →
     cn (l1 ++ [SIArray l2] ++ l3) = cn (l1 ++ l2 ++ l3))
  ∧ cn [SIOther; SIObject [("a", None)]] = [("a", None)]
  ∧ cn [SIArray [SIOther; SIObject [("a", None)]]] = [].
Proof.
  assert (flat_map flattenStyle [SIArray l2] = flat_map flattenStyle l2)
    as Hnested.
  { change (flat_map flattenStyle [SIArray l2])
      with (flattenStyle (SIArray l2) ++ []).
    by rewrite app_nil_r, flattenStyle_array. }
  split_and!.
  - by rewrite !flattenStyle_array, !flat_map_app_list, Hnested.
  - by rewrite !flattenStyle_array, !flat_map_app_list.
  - intros k. rewrite !cn_definedGet, !flatObjects_cnFlattened.
    by rewrite !flattenStyle_array, !flat_map_app_list, Hnested.
  - intros Hl2. unfold cn. by rewrite cnFlattened_array_inline.
  - reflexivity.
  - reflexivity.
Qed.

Lemma X2_flattenStyle_splices_nested_arrays_witness :
  cn [SIObject [("margin", Some (PNum 1))];
      SIArray [SIFalsy; SIObject [("padding", Some (PNum 2))]; SIArray []]]
  = cn [SIObject [("margin", Some (PNum 1))];
        SIFalsy; SIObject [("padding", Some (PNum 2))]; SIArray []].
Proof.
  destruct (X2_flattenStyle_splices_nested_arrays
              [SIObject [("margin", Some (PNum 1))]]
              [SIFalsy; SIObject [("padding", Some (PNum 2))]; SIArray []]
              []) as (_ & _ & _ & Hsame & _).
  apply Hsame. repeat constructor; discriminate.
Defined.

(** X3. When exactly one item is left after flattening and it is an
    object, [cn] returns that object as it is, properties holding
    [undefined] included; in every other case the result is a new object
    with distinct keys, none of which holds [undefined]. So an object passed
    with arguments that add nothing (falsy values, truthy values that are
    neither objects nor arrays, arrays without any truthy item) comes back
    as it is, alone or as the only item of an array; while
    [cn([5, {a: undefined}])] and [cn({a: undefined}, {})], where two items
    are left, are [{}]. *)
Theorem X3_cn_single_object_shortcut (styles before after : list StyleInput)
    (o : StyleObject) :
  match cnFlattened styles with
  | [FObject single] => cn styles = single
  | _ => Forall (λ kv, is_Some kv.2) (cn styles) ∧ NoDup (okeys (cn styles))
  end
  ∧ (Forall (λ style, cnEntry style = []) (before ++ after) →
     cn (before ++ [SIObject o] ++ after) = o
     ∧ cn (before ++ [SIArray [SIObject o]] ++ after) = o)
  ∧ cn [SIOther; SIObject [("a", None)]] = [("a", None)]
  ∧ cn [SIArray [SIOther; SIObject [("a", None)]]] = []
  ∧ cn [SIObject [("a", None)]; SIObject []] = [].
Proof.
  split_and!; [| |done..].
  - unfold cn.
    destruct (cnFlattened styles) as [|[single|] [|style flattened]] eqn:Hflat.
    + split; constructor.
    + done.
    + apply (mergeStyles_loop_clean (FObject single :: style :: flattened)).
    + apply (mergeStyles_loop_clean [FOther]).
    + apply (mergeStyles_loop_clean (FOther :: style :: flattened)).
  - intros [Hbefore Hafter]%Forall_app. unfold cn.
    rewrite !cnFlattened_app, !(cnFlattened_dropped before),
      !(cnFlattened_dropped after) by done.
    done.
Qed.

Lemma X3_cn_single_object_shortcut_witness :
  cn [SIFalsy; SIOther; SIObject [("a", None)]; SIArray [SIFalsy]]
  = [("a", None)].
Proof.
  destruct (X3_cn_single_object_shortcut [] [SIFalsy; SIOther]
              [SIArray [SIFalsy]] [("a", None)]) as (_ & Hsingle & _).
  apply Hsingle. repeat constructor.
Defined.

(** X4. [cn] composes: merging some styles and passing the result as the
    last argument of another [cn] gives every property the value that one
    [cn] over all the styles gives it. *)
Theorem X4_cn_composes (before rest : list StyleInput) (k : string) :
  definedGet k (cn (before ++ [SIObject (cn rest)]))
  = definedGet k (cn (before ++ rest)).
Proof.
  rewrite !cn_definedGet, !cnFlattened_app, !flatObjects_app, !lastDefined_app.
  assert (lastDefined k (flatObjects (cnFlattened [SIObject (cn rest)]))
          = lastDefined k (flatObjects (cnFlattened rest))) as ->; [|done].
  rewrite <-(cn_definedGet k rest).
  change (flatObjects (cnFlattened [SIObject (cn rest)])) with [cn rest].
  unfold lastDefined. cbn [fold_left].
  by destruct (definedGet k (cn rest)).
Qed.

(** ** [composeText], [hasTextStyles], [composeView] *)

(** The loop shared by [composeText] and [composeView]: the properties whose
    key passes the test are copied. *)
Lemma oget_copy_keys (test : string → bool) (style : StyleObject) k :
  oget k
    (fold_left
       (λ result key,
          if test key then oset key (styleProp key style) result else result)
       (okeys style) [])
  = if test k then oget k style else None.
Proof.
  assert (∀ keys (result : StyleObject),
            oget k
              (fold_left
                 (λ result key,
                    if test key then oset key (styleProp key style) result
                    else result) keys result)
            = if decide (k ∈ keys ∧ test k) then Some (styleProp k style)
              else oget k result) as Hgen.
  { intros keys. induction keys as [|key keys IH]; intros result.
    - cbn [fold_left].
      by destruct (decide (k ∈ [] ∧ test k)) as [[?%elem_of_nil _]|_].
    - cbn [fold_left]. rewrite IH. destruct (decide (k = key)) as [->|Hne].
      + destruct (test key) eqn:Htest.
        * rewrite oget_oset, (decide_True (P := key = key)) by done.
          rewrite (decide_True (P := key ∈ key :: keys ∧ true))
            by (split; [left|done]).
          by case_decide.
        * rewrite !decide_False; [done|by intros [_ ?]..].
      + assert (oget k (if test key then oset key (styleProp key style) result
                        else result) = oget k result) as ->.
        { destruct (test key); [|done]. by rewrite oget_oset, decide_False. }
        destruct (decide (k ∈ keys ∧ test k)) as [[??]|Hn].
        * rewrite decide_True; [done|]. split; [by right|done].
        * rewrite decide_False; [done|].
          intros [[?|?]%elem_of_cons ?]; [done|]. by apply Hn. }
  rewrite Hgen. destruct (test k) eqn:Htest.
  - destruct (decide (k ∈ okeys style ∧ true)) as [[Hin _]|Hn].
    + unfold styleProp. destruct (oget k style) as [v|] eqn:Hget; [done|].
      by apply oget_None in Hget.
    + simpl. symmetry. apply oget_None. intros Hin. by apply Hn.
  - rewrite decide_False; [done|]. by intros [_ ?].
Qed.

(** X5. [composeText] and [composeView] split a style object: a property
    under a text style key is in the result of [composeText], with its
    value, and not in that of [composeView]; any other property is in the
    result of [composeView] and not in that of [composeText]; without a
    style both return the empty object. *)
Theorem X5_composeText_composeView_split (style : StyleObject) (k : string) :
  oget k (composeText (Some style))
  = (if isTextKey k then oget k style else None)
  ∧ oget k (composeView (Some style))
    = (if isTextKey k then None else oget k style)
  ∧ composeText None = [] ∧ composeView None = [].
Proof.
  split_and!; [| |done..].
  - apply (oget_copy_keys isTextKey).
  - unfold composeView. rewrite (oget_copy_keys (λ key, negb (isTextKey key))).
    by destruct (isTextKey k).
Qed.

Lemma okeys_filter_subseteq {A} (P : string * A → Prop)
    `{∀ x, Decision (P x)} (o : obj A) :
  okeys (filter P o) ⊆ okeys o.
Proof.
  unfold okeys. intros k ([k' v] & -> & Hin%list_elem_of_filter)%list_elem_of_fmap.
  apply list_elem_of_fmap. exists (k', v). by destruct Hin.
Qed.

Lemma oget_elem_NoDup {A} k (v : A) (o : obj A) :
  NoDup (okeys o) → (k, v) ∈ o → oget k o = Some v.
Proof.
  unfold okeys. induction o as [|[k' v'] o IH]; [by intros _ ?%elem_of_nil|].
  rewrite fmap_cons, NoDup_cons. intros [Hk' Hnd] [Heq|Hin]%elem_of_cons.
  - simplify_eq. simpl. by rewrite decide_True.
  - simpl. case_decide as Hk; [|by apply IH]. subst k'. exfalso.
    apply Hk'. simpl. apply list_elem_of_fmap. by exists (k, v).
Qed.

(** On an object with distinct keys the copying loop is a filter. *)
Lemma copy_keys_filter (test : string → bool) (style : StyleObject) :
  NoDup (okeys style) →
  fold_left
    (λ result key,
       if test key then oset key (styleProp key style) result else result)
    (okeys style) []
  = filter (λ kv, test kv.1) style.
Proof.
  intros Hnd.
  assert (∀ l : StyleObject,
            NoDup (okeys l) → (∀ kv, kv ∈ l → oget kv.1 style = Some kv.2) →
            fold_left
              (λ result key,
                 if test key then oset key (styleProp key style) result
                 else result) (okeys l) []
            = filter (λ kv, test kv.1) l) as Hgen.
  { intros l. unfold okeys. induction l as [|[k v] l IH] using rev_ind;
      [done|].
    rewrite fmap_app, NoDup_app. intros (Hl & Hdisj & _) Hget.
    rewrite fold_left_app, filter_app, IH;
      [|done|intros kv Hkv; apply Hget, elem_of_app; by left].
    simpl. rewrite filter_cons, filter_nil. simpl.
    destruct (test k) eqn:Htest.
    - rewrite decide_True by done.
      assert (oget k style = Some v) as Hkv.
      { apply (Hget (k, v)), elem_of_app. right. left. }
      unfold styleProp. rewrite Hkv. simpl. apply oset_fresh. intros Hin%okeys_filter_subseteq.
      apply (Hdisj _ Hin). left.
    - case_decide; [done|]. by rewrite app_nil_r. }
  apply Hgen; [done|]. intros [k v] Hin. by apply oget_elem_NoDup.
Qed.

Lemma composeText_filter (style : StyleObject) :
  NoDup (okeys style) →
  composeText (Some style) = filter (λ kv, isTextKey kv.1) style.
Proof. apply (copy_keys_filter isTextKey). Qed.

Lemma composeView_filter (style : StyleObject) :
  NoDup (okeys style) →
  composeView (Some style) = filter (λ kv, ¬ isTextKey kv.1) style.
Proof.
  intros Hnd. unfold composeView.
  rewrite (copy_keys_filter (λ key, negb (isTextKey key))) by done.
  apply list_filter_iff. intros [k v]. simpl. by rewrite negb_True.
Qed.

(** X6. On a style object with distinct keys, [composeText] returns its
    text properties and [composeView] its other properties, each in the
    order of the object: together they hold every property of the object
    exactly once. *)
Theorem X6_composeText_composeView_partition (style : StyleObject) :
  wfObj style →
  composeText (Some style) = filter (λ kv, isTextKey kv.1) style
  ∧ composeView (Some style) = filter (λ kv, ¬ isTextKey kv.1) style
  ∧ composeText (Some style) ++ composeView (Some style) ≡ₚ style.
Proof.
  intros Hwf.
  pose proof (composeText_filter style Hwf) as Htext.
  pose proof (composeView_filter style Hwf) as Hview.
  split_and!; [done..|]. rewrite Htext, Hview.
  apply (filter_app_complement (λ kv : string * option prim, isTextKey kv.1)).
Qed.

(** X6 at a style with two text properties among four. *)
Lemma X6_composeText_composeView_partition_witness :
  let style : StyleObject :=
    [("backgroundColor", Some (PStr "#fff")); ("color", Some (PStr "#000"));
     ("padding", Some (PNum 16)); ("fontSize", Some (PNum 14))] in
  composeText (Some style)
  = [("color", Some (PStr "#000")); ("fontSize", Some (PNum 14))]
  ∧ composeView (Some style)
    = [("backgroundColor", Some (PStr "#fff")); ("padding", Some (PNum 16))].
Proof.
  intros style.
  destruct (X6_composeText_composeView_partition style) as (Ht & Hv & _).
  - compute_done.
  - split; [etrans; [exact Ht|]|etrans; [exact Hv|]]; reflexivity.
Defined.

Lemma copy_keys_nil (test : string → bool) (style : StyleObject) :
  fold_left
    (λ result key,
       if test key then oset key (styleProp key style) result else result)
    (okeys style) [] = []
  ↔ ∀ k, k ∈ okeys style → test k = false.
Proof.
  split.
  - intros Hnil k Hk. destruct (test k) eqn:Htest; [|done].
    pose proof (oget_copy_keys test style k) as Hget.
    rewrite Hnil, Htest in Hget. simpl in Hget. symmetry in Hget.
    by apply oget_None in Hget.
  - intros Hall.
    apply (fold_left_invariant (λ result : StyleObject, result = []));
      [|done].
    intros acc key Hkey ->. by rewrite (Hall key Hkey).
Qed.

(** X7. [hasTextStyles] answers whether [composeText] would return
    anything: it is true exactly when some key of the style is a text style
    key, that is when the result of [composeText] is not empty, and when it
    is false the result of [composeView] has all the keys of the style. *)
Theorem X7_hasTextStyles_iff_composeText_nonempty
    (style : option StyleObject) :
  (hasTextStyles style = true ↔ composeText style ≠ [])
  ∧ (hasTextStyles style = true
     ↔ ∃ k, k ∈ okeys (default [] style) ∧ isTextKey k = true)
  ∧ (hasTextStyles style = false →
     ∀ k, oget k (composeView style) = oget k (default [] style)).
Proof.
  destruct style as [style|]; [|split_and!; [split|split|]; try done;
    by intros (k & ?%elem_of_nil & _)].
  assert (hasTextStyles (Some style) = true
          ↔ ∃ k, k ∈ okeys style ∧ isTextKey k = true) as Hex.
  { unfold hasTextStyles. rewrite existsb_exists.
    split; intros (k & Hin & Hk); exists k;
      (split; [by apply list_elem_of_In|done]). }
  split_and!; [|done|].
  - rewrite Hex. unfold composeText. rewrite (copy_keys_nil isTextKey). split.
    + intros (k & Hin & Hk) Hall. by rewrite (Hall k Hin) in Hk.
    + intros Hnot. destruct (existsb isTextKey (okeys style)) eqn:Hb.
      * apply existsb_exists in Hb as (k & Hin & Hk).
        exists k. by split; [apply list_elem_of_In|].
      * exfalso. apply Hnot. intros k Hin.
        destruct (isTextKey k) eqn:Hk; [|done].
        rewrite <-Hb. symmetry. apply existsb_exists.
        exists k. by split; [apply list_elem_of_In|].
  - intros Hfalse k. unfold composeView.
    rewrite (oget_copy_keys (λ key, negb (isTextKey key))). simpl.
    destruct (isTextKey k) eqn:Hk; [|done]. simpl.
    symmetry. apply oget_None. intros Hin.
    assert (hasTextStyles (Some style) = true) as Htrue by (apply Hex; eauto).
    congruence.
Qed.

Lemma copy_keys_clean (test : string → bool) (style : StyleObject) :
  NoDup
    (okeys
       (fold_left
          (λ (result : StyleObject) key,
             if test key then oset key (styleProp key style) result
             else result) (okeys style) []))
  ∧ Forall (λ k, test k = true)
      (okeys
         (fold_left
            (λ (result : StyleObject) key,
               if test key then oset key (styleProp key style) result
               else result) (okeys style) [])).
Proof.
  apply (fold_left_invariant
           (λ result : StyleObject,
              NoDup (okeys result) ∧ Forall (λ k, test k = true) (okeys result))).
  - intros acc key _ [Hnd Hall]. destruct (test key) eqn:Htest; [|done].
    split; [by apply NoDup_oset|].
    by apply (Forall_okeys_oset (λ k, test k = true)).
  - split; constructor.
Qed.

Lemma filter_all {A} (P : A → Prop) `{∀ x, Decision (P x)} (l : list A) :
  Forall P l → filter P l = l.
Proof.
  induction 1 as [|x l Hx Hl IH]; [done|].
  by rewrite filter_cons_True, IH.
Qed.

Lemma filter_none {A} (P : A → Prop) `{∀ x, Decision (P x)} (l : list A) :
  Forall (λ x, ¬ P x) l → filter P l = [].
Proof.
  induction 1 as [|x l Hx Hl IH]; [done|].
  by rewrite filter_cons_False, IH.
Qed.

(** X8. The two extractions are projections that exclude each other:
    [composeText] of its own result returns it unchanged, and so does
    [composeView]; [composeView] of a result of [composeText] and
    [composeText] of a result of [composeView] are empty, and a result of
    [composeView] has no text style. *)
Theorem X8_compose_projections (style : option StyleObject) :
  composeText (Some (composeText style)) = composeText style
  ∧ composeView (Some (composeView style)) = composeView style
  ∧ composeView (Some (composeText style)) = []
  ∧ composeText (Some (composeView style)) = []
  ∧ hasTextStyles (Some (composeView style)) = false.
Proof.
  destruct style as [style|]; [|done].
  destruct (copy_keys_clean isTextKey style) as [Hnd_t Hall_t].
  destruct (copy_keys_clean (λ key, negb (isTextKey key)) style)
    as [Hnd_v Hall_v].
  fold (composeText (Some style)) in Hnd_t, Hall_t.
  fold (composeView (Some style)) in Hnd_v, Hall_v.
  assert (Forall (λ kv : string * option prim, isTextKey kv.1)
            (composeText (Some style))) as Ht.
  { unfold okeys in Hall_t. rewrite Forall_fmap in Hall_t.
    eapply Forall_impl; [exact Hall_t|]. intros [k v] Hk.
    cbn [fst compose] in Hk |- *. by rewrite Hk. }
  assert (Forall (λ kv : string * option prim, ¬ isTextKey kv.1)
            (composeView (Some style))) as Hv.
  { unfold okeys in Hall_v. rewrite Forall_fmap in Hall_v.
    eapply Forall_impl; [exact Hall_v|]. intros [k v] Hk.
    cbn [fst compose] in Hk |- *. apply negb_true_iff in Hk.
    rewrite Hk. by intros []. }
  rewrite (composeText_filter (composeText (Some style)) Hnd_t),
    (composeView_filter (composeView (Some style)) Hnd_v),
    (composeView_filter (composeText (Some style)) Hnd_t),
    (composeText_filter (composeView (Some style)) Hnd_v).
  split_and!.
  - by apply filter_all.
  - by apply filter_all.
  - apply filter_none. eapply Forall_impl; [exact Ht|]. intros kv Hk Hn. done.
  - by apply filter_none.
  - apply not_true_is_false. intros (k & Hin & Hk)%existsb_exists.
    apply list_elem_of_In in Hin.
    eapply Forall_forall in Hall_v; [|exact Hin]. simpl in Hall_v.
    apply negb_true_iff in Hall_v. congruence.
Qed.

(** ** The theme provider *)

(** X9. A [toggle] callback writes an explicit mode, the scheme opposite
    to the one that the render it belongs to shows, and calls
    [onSetStorage], when given, once with that mode; it leaves the recorded
    system scheme and the hydration flag as they are, and from then on the
    scheme shown no longer follows the system. Called a second time before
    the provider is rendered again, the same callback writes the same mode
    again and persists it again: it does not flip back. The callback of the
    next render flips back to the scheme shown before, as an explicit mode
    and never as the mode ["system"]. *)
Theorem X9_toggle_flips_and_leaves_system (hasSetStorage : bool)
    (rendered st : ProviderState) :
  let shown := resolveColorScheme (mode rendered) (systemScheme rendered) in
  let written := Explicit (oppositeScheme shown) in
  let st1 := (toggleOf hasSetStorage rendered st).1 in
  mode st1 = written
  ∧ systemScheme st1 = systemScheme st
  ∧ isHydrated st1 = isHydrated st
  ∧ (toggleOf hasSetStorage rendered st).2
    = (if hasSetStorage then [written] else [])
  ∧ (∀ later, resolveColorScheme (mode st1) later = oppositeScheme shown)
  ∧ toggleOf hasSetStorage rendered st1
    = (st1, if hasSetStorage then [written] else [])
  ∧ toggle hasSetStorage st = toggleOf hasSetStorage st st
  ∧ mode (toggleOf hasSetStorage st1 st1).1 = Explicit shown
  ∧ mode (toggleOf hasSetStorage st1 st1).1 ≠ SystemMode.
Proof.
  intros shown written st1. subst st1 written shown.
  unfold toggle, toggleOf, setMode. simpl.
  destruct (resolveColorScheme (mode rendered) (systemScheme rendered));
    split_and!; done.
Qed.

Lemma runProvider_snoc hasSetStorage events event st :
  runProvider hasSetStorage (events ++ [event]) st
  = providerStep hasSetStorage (runProvider hasSetStorage events st) event.
Proof. unfold runProvider. by rewrite fold_left_app. Qed.

(** X10. Changes of the system colour scheme write the recorded system
    scheme only: after any number of them the mode and the hydration flag
    are what they were. While the mode is explicit they change nothing of
    the context value nor of what the provider renders; while the mode is
    ["system"], the scheme in effect after any such changes is the last one
    reported, read as light unless it is dark. *)
Theorem X10_system_scheme_matters_in_system_mode_only {T : Type}
    (defaultColors darkColors : T) (hasSetStorage : bool)
    (events : list ProviderEvent) (st : ProviderState) :
  forallb isSystemChanged events = true →
  mode (runProvider hasSetStorage events st) = mode st
  ∧ isHydrated (runProvider hasSetStorage events st) = isHydrated st
  ∧ (∀ scheme,
       mode st = Explicit scheme →
       contextValue defaultColors darkColors
         (runProvider hasSetStorage events st)
       = contextValue defaultColors darkColors st
       ∧ renderProvider defaultColors darkColors
           (runProvider hasSetStorage events st)
         = renderProvider defaultColors darkColors st)
  ∧ (mode st = SystemMode →
     ∀ last,
       colorScheme
         (contextValue defaultColors darkColors
            (runProvider hasSetStorage (events ++ [SystemChanged last]) st))
       = match last with Some Dark => Dark | _ => Light end).
Proof.
  intros Hev.
  assert (mode (runProvider hasSetStorage events st) = mode st
          ∧ isHydrated (runProvider hasSetStorage events st) = isHydrated st)
    as [Hmode Hhyd].
  { induction events as [|event events IH] using rev_ind; [done|].
    rewrite forallb_app in Hev. apply andb_true_iff in Hev as [Hevs Hev].
    rewrite runProvider_snoc. destruct event; try done. simpl. by apply IH. }
  split_and!; [done|done| |].
  - intros scheme Hst.
    assert (contextValue defaultColors darkColors
              (runProvider hasSetStorage events st)
            = contextValue defaultColors darkColors st) as Hvalue.
    { unfold contextValue. rewrite Hmode, Hst. done. }
    split; [done|]. unfold renderProvider. by rewrite Hhyd, Hvalue.
  - intros Hst last. rewrite runProvider_snoc. unfold contextValue. simpl.
    by rewrite Hmode, Hst.
Qed.

Lemma X10_system_scheme_matters_in_system_mode_only_witness :
  let st := initialState (Some (Explicit Light)) (Some Light) false in
  contextValue "white" "black"
    (runProvider false [SystemChanged (Some Dark); SystemChanged None] st)
  = contextValue "white" "black" st.
Proof.
  intros st.
  destruct (X10_system_scheme_matters_in_system_mode_only "white" "black"
              false [SystemChanged (Some Dark); SystemChanged None] st)
    as (_ & _ & Hexplicit & _).
  - reflexivity.
  - by apply (Hexplicit Light).
Defined.

(** X11. A provider given [onGetStorage] renders nothing until the stored
    mode has been read, whatever else happens, and renders from then on; a
    provider without it renders from the start. The stored mode, when there
    is one, replaces the mode; [null] keeps it. *)
Theorem X11_provider_renders_once_hydrated {T : Type}
    (defaultColors darkColors : T) (defaultMode : option ThemeMode)
    (appearance : ColorSchemeName) (hasGetStorage hasSetStorage : bool)
    (events : list ProviderEvent) :
  let st := runProvider hasSetStorage events
              (initialState defaultMode appearance hasGetStorage) in
  (renderProvider defaultColors darkColors st = None
   ↔ hasGetStorage = true ∧ existsb isStorageLoaded events = false)
  ∧ (∀ stored,
       mode (storageLoaded stored st) = default (mode st) stored
       ∧ renderProvider defaultColors darkColors (storageLoaded stored st)
         = Some (contextValue defaultColors darkColors
                   (storageLoaded stored st))).
Proof.
  intros st.
  assert (isHydrated st
          = negb hasGetStorage || existsb isStorageLoaded events) as Hhyd.
  { subst st. induction events as [|event events IH] using rev_ind.
    - simpl. by rewrite orb_false_r.
    - rewrite runProvider_snoc, existsb_app. simpl. rewrite orb_false_r.
      destruct event; simpl; rewrite ?IH, ?orb_false_r, ?orb_true_r; done. }
  split.
  - unfold renderProvider. rewrite Hhyd.
    destruct hasGetStorage, (existsb isStorageLoaded events); simpl;
      split; try done; by intros [??].
  - intros stored. split; [by destruct stored|done].
Qed.

(** ** [createNVA] *)

(** X12. In the theme of a [createNVA] instance a colour name reads the
    light ([default]) colour the caller declared under that name, else the
    built-in colour of that name; the dark colours do not enter the theme
    and are handed back as [colorScheme]; the token scales are the built-in
    ones; and a configuration factory passed to [styled] receives this
    theme. *)
Theorem X12_createNVA_user_colors_override_palette {Scales : Type}
    (palette : obj string) (scales : Scales) (light dark : obj string)
    (utils : option UtilsConfig) (k : string) :
  wfObj light →
  let colorsInput := {| colorsDefault := light; colorsDark := dark |} in
  let nva :=
    createNVA palette scales
      (Some {| optionsTheme := Some colorsInput; optionsUtils := utils |}) in
  oget k (themeColors (nvaTheme nva))
  = match oget k light with
    | Some color => Some color
    | None => oget k (spread palette)
    end
  ∧ themeScales (nvaTheme nva) = scales
  ∧ nvaColorScheme nva = Some colorsInput
  ∧ themeColors (nvaTheme (createNVA palette scales None)) = spread palette
  ∧ (∀ ref factory,
       nvaStyled nva ref (ConfigFactory factory)
       = nvaStyled nva ref (ConfigObject (factory (nvaTheme nva)))).
Proof.
  intros Hwf colorsInput nva. split_and!; try done.
  unfold nva, createNVA. simpl. unfold spread2.
  by rewrite oget_assign_NoDup.
Qed.

Lemma X12_createNVA_user_colors_override_palette_witness :
  let nva :=
    createNVA [("blue500", "#3b82f6"); ("primary", "#000000")] ()
      (Some {| optionsTheme :=
                 Some {| colorsDefault := [("primary", "#3b82f6")];
                         colorsDark := [("primary", "#60a5fa")] |};
               optionsUtils := None |}) in
  oget "primary" (themeColors (nvaTheme nva)) = Some "#3b82f6".
Proof.
  intros nva.
  destruct (X12_createNVA_user_colors_override_palette
              [("blue500", "#3b82f6"); ("primary", "#000000")] ()
              [("primary", "#3b82f6")] [("primary", "#60a5fa")] None
              "primary") as (Hcolor & _).
  - compute_done.
  - etrans; [exact Hcolor|]. reflexivity.
Defined.

(** ** More on the cache *)

Lemma nget_None_undefined props :
  wfObj props →
  (∀ k, nget k props = None) ↔ Forall (λ kv, kv.2 = VUndefined) props.
Proof.
  intros Hwf. split.
  - intros Hnone. apply Forall_forall. intros [k v] Hin.
    specialize (Hnone k). unfold nget in Hnone.
    rewrite (oget_elem_NoDup k v props Hwf Hin) in Hnone.
    simpl. by destruct v.
  - intros Hall k. unfold nget.
    destruct (oget k props) as [v|] eqn:Hget; [|done].
    apply oget_Some_elem in Hget. eapply Forall_forall in Hall; [|done].
    simpl in Hall. by subst v.
Qed.

(** X13. [createCacheKey] returns the marker ["{}"] exactly for the
    selections in which nothing is selected: [undefined], the empty object,
    and the objects whose keys all hold [undefined]. *)
Theorem X13_createCacheKey_marker_iff_nothing_selected
    (props : option (obj value)) :
  isObject props →
  createCacheKey props = "{}"
  ↔ Forall (λ kv, kv.2 = VUndefined) (propsOf props).
Proof.
  intros Hwf. rewrite createCacheKey_marker. by apply nget_None_undefined.
Qed.

Lemma X13_createCacheKey_marker_iff_nothing_selected_witness :
  createCacheKey (Some [("size", VUndefined); ("big", VUndefined)]) = "{}".
Proof.
  apply (X13_createCacheKey_marker_iff_nothing_selected
           (Some [("size", VUndefined); ("big", VUndefined)])).
  - compute_done.
  - repeat constructor.
Defined.

Lemma computeStyles_objects_prefix c props st :
  objects st `prefix_of` objects (NVA.computeStyles c props st).2.
Proof.
  destruct (computeStyles_cases c props st) as [(l&_&->)|[_ ->]]; [done|].
  unfold cacheStore. simpl. by apply prefix_app_r.
Qed.

(** X14. The cache is never evicted nor overwritten: whatever calls are
    made, by whatever resolvers, an entry of the cache still maps its key to
    the same object, and the objects allocated so far are still there,
    unchanged, in front of the new ones. *)
Theorem X14_cache_never_evicts
    (history : list (Closure * option (obj value))) (st : Store)
    (ref : nat) (k : string) (l : nat) (result : Resolved) :
  cacheLookup st ref k = Some l →
  deref st l = Some result →
  cacheLookup (runHistory history st) ref k = Some l
  ∧ deref (runHistory history st) l = Some result
  ∧ objects st `prefix_of` objects (runHistory history st).
Proof.
  intros Hl Hobj. split_and!.
  - by apply runHistory_keeps_entry.
  - by apply runHistory_keeps_object.
  - clear. revert st. induction history as [|[c p] history IH]; intros st;
      [done|].
    simpl. etrans; [apply (computeStyles_objects_prefix c p)|apply IH].
Qed.

Lemma X14_cache_never_evicts_witness :
  let c := NVA.styled () [] 0 (ConfigObject sizeConfig) in
  let st := (NVA.computeStyles c (Some [("size", VStr "lg")]) emptyStore).2 in
  let history := [(c, None); (c, Some [("size", VStr "xl")])] in
  cacheLookup (runHistory history st) 0 "size:lg;" = Some 0
  ∧ deref (runHistory history st) 0 = Some [("root", [("padding", PNum 16)])].
Proof.
  intros c st history.
  destruct (X14_cache_never_evicts history st 0 "size:lg;" 0
              [("root", [("padding", PNum 16)])]) as (Hentry & Hobj & _).
  - reflexivity.
  - reflexivity.
  - by split.
Defined.

(** X15. A call whose key is in the cache is a pure hit: after a call, a
    second call with a selection of the same key returns the same reference
    and leaves the store as it is; and one call allocates at most one
    object. *)
Theorem X15_second_call_is_a_pure_hit (c : Closure)
    (p1 p2 : option (obj value)) (st : Store) :
  createCacheKey p1 = createCacheKey p2 →
  let r := NVA.computeStyles c p1 st in
  NVA.computeStyles c p2 r.2 = (r.1, r.2)
  ∧ length (objects r.2) ≤ S (length (objects st)).
Proof.
  intros Hkey r. split.
  - apply computeStyles_hit. rewrite <-Hkey. unfold r.
    destruct (computeStyles_cases c p1 st) as [(l&Hhit&->)|[Hmiss ->]];
      [done|].
    rewrite cacheLookup_cacheStore. by rewrite decide_True.
  - unfold r.
    destruct (computeStyles_cases c p1 st) as [(l&Hhit&->)|[Hmiss ->]];
      simpl; [lia|].
    rewrite length_app. simpl. lia.
Qed.

Lemma X15_second_call_is_a_pure_hit_witness :
  let c := NVA.styled () [] 0 (ConfigObject sizeConfig) in
  let r := NVA.computeStyles c (Some [("size", VStr "lg")]) emptyStore in
  NVA.computeStyles c (Some [("ghost", VUndefined); ("size", VStr "lg")]) r.2
  = (r.1, r.2).
Proof.
  intros c r.
  destruct (X15_second_call_is_a_pure_hit c (Some [("size", VStr "lg")])
              (Some [("ghost", VUndefined); ("size", VStr "lg")]) emptyStore)
    as [Hhit _].
  - reflexivity.
  - exact Hhit.
Defined.

Lemma computeStyles_other_partition c props st ref k :
  configRef c ≠ ref →
  cacheLookup (NVA.computeStyles c props st).2 ref k = cacheLookup st ref k.
Proof.
  intros Hne.
  destruct (computeStyles_cases c props st) as [(l&_&->)|[_ ->]]; [done|].
  rewrite cacheLookup_cacheStore. rewrite decide_False; [done|].
  intros [-> _]. done.
Qed.

(** X16. The caches of two resolvers are isolated: the calls of the other
    resolvers of the instance leave the partition of a resolver as it is,
    and the style set a call of the resolver returns is the one it would
    return had the others not been called. *)
Theorem X16_cache_partitions_are_isolated (c : Closure)
    (others : list (Closure * option (obj value)))
    (props : option (obj value)) (st : Store) :
  storeWf st →
  Forall (λ call, configRef call.1 ≠ configRef c) others →
  (∀ k,
     cacheLookup (runHistory others st) (configRef c) k
     = cacheLookup st (configRef c) k)
  ∧ (let r := NVA.computeStyles c props st in
     let r' := NVA.computeStyles c props (runHistory others st) in
     deref r'.2 r'.1 = deref r.2 r.1).
Proof.
  intros Hwf Hothers.
  assert (∀ k,
            cacheLookup (runHistory others st) (configRef c) k
            = cacheLookup st (configRef c) k) as Hsame.
  { intros k. revert st Hwf.
    induction Hothers as [|[c' p'] others Hc' _ IH]; intros st Hwf; [done|].
    simpl. rewrite IH by by apply computeStyles_storeWf.
    by apply computeStyles_other_partition. }
  split; [done|]. intros r r'. subst r r'.
  destruct (cacheLookup st (configRef c) (createCacheKey props)) as [l|]
    eqn:Hlook.
  - rewrite (computeStyles_hit c props st l Hlook).
    rewrite (computeStyles_hit c props (runHistory others st) l)
      by by rewrite Hsame.
    simpl. destruct (deref st l) as [result|] eqn:Hobj.
    + by apply runHistory_keeps_object.
    + apply Hwf in Hlook. apply lookup_ge_None in Hobj. lia.
  - rewrite (computeStyles_miss c props st Hlook).
    rewrite (computeStyles_miss c props (runHistory others st))
      by by rewrite Hsame.
    by rewrite !deref_cacheStore_new.
Qed.

Lemma X16_cache_partitions_are_isolated_witness :
  let c := NVA.styled () [] 0 (ConfigObject sizeConfig) in
  let other := NVA.styled () [] 1 (ConfigObject bigConfig) in
  let others := [(other, Some [("size", VStr "lg")]); (other, None)] in
  let r' := NVA.computeStyles c (Some [("size", VStr "lg")])
              (runHistory others emptyStore) in
  deref r'.2 r'.1 = Some [("root", [("padding", PNum 16)])].
Proof.
  intros c other others r'.
  destruct (X16_cache_partitions_are_isolated c others
              (Some [("size", VStr "lg")]) emptyStore) as [_ Hres].
  - exact emptyStore_wf.
  - repeat constructor; compute_done.
  - etrans; [exact Hres|]. reflexivity.
Defined.

(** ** More on the resolution *)

Lemma oget_fold_oset {A} (f : string → A) (keys : list string) (acc : obj A)
    (k : string) :
  oget k (fold_left (λ result key, oset key (f key) result) keys acc)
  = if decide (k ∈ keys) then Some (f k) else oget k acc.
Proof.
  revert acc. induction keys as [|key keys IH]; intros acc.
  - cbn [fold_left]. destruct (decide (k ∈ [])) as [Hin|_]; [|done].
    by apply elem_of_nil in Hin.
  - cbn [fold_left]. rewrite IH, oget_oset.
    destruct (decide (k ∈ keys)) as [Hin|Hnin];
      destruct (decide (k ∈ key :: keys)) as [Hin'|Hnin'];
      destruct (decide (k = key)) as [->|Hne];
      try done; set_solver.
Qed.

Lemma NoDup_fold_oset {A} (f : string → A) (keys : list string)
    (acc : obj A) :
  NoDup (okeys acc) →
  NoDup (okeys (fold_left (λ result key, oset key (f key) result) keys acc)).
Proof.
  revert acc. induction keys as [|key keys IH]; intros acc Hnd; [done|].
  cbn [fold_left]. apply IH. by apply NoDup_oset.
Qed.

(** X17. A resolved style set has exactly the declared slots, each once:
    a declared slot is present with the merged style of that slot even when
    no style names it, and a slot that only [base], a variant or a compound
    rule names is absent. *)
Theorem X17_resolved_set_has_the_declared_slots (c : Closure)
    (resolvedProps : obj value) (slot : string) :
  oget slot (computeAllSlots c resolvedProps)
  = (if decide (slot ∈ frozenSlots c)
     then Some (computeSlotStyles slot (cBase c) (cVariants c)
                  (frozenCompoundVariants c) resolvedProps)
     else None)
  ∧ (slot ∈ okeys (computeAllSlots c resolvedProps) ↔ slot ∈ frozenSlots c)
  ∧ NoDup (okeys (computeAllSlots c resolvedProps)).
Proof.
  assert (oget slot (computeAllSlots c resolvedProps)
          = (if decide (slot ∈ frozenSlots c)
             then Some (computeSlotStyles slot (cBase c) (cVariants c)
                          (frozenCompoundVariants c) resolvedProps)
             else None)) as Hget.
  { unfold computeAllSlots.
    by rewrite (oget_fold_oset
                  (λ slot, computeSlotStyles slot (cBase c) (cVariants c)
                             (frozenCompoundVariants c) resolvedProps)). }
  split_and!; [done| |].
  - destruct (decide (slot ∈ frozenSlots c)) as [Hin|Hnin].
    + split; [done|]. intros _.
      destruct (decide (slot ∈ okeys (computeAllSlots c resolvedProps)))
        as [|Hout]; [done|].
      apply oget_None in Hout. by rewrite Hout in Hget.
    + apply oget_None in Hget. split; [done|]. intros Hin. done.
  - unfold computeAllSlots.
    apply (NoDup_fold_oset
             (λ slot, computeSlotStyles slot (cBase c) (cVariants c)
                        (frozenCompoundVariants c) resolvedProps)).
    constructor.
Qed.

(** X18. The effective selection reads, under a variant name, the value the
    caller gave when that value is not [undefined], and else the default
    declared for that name, if any: an explicit [undefined] does not erase a
    default, while an explicit [false] or empty string replaces it. *)
Theorem X18_effective_selection_lookup (defaults props : obj value)
    (k : string) :
  wfObj props →
  oget k (resolveProps defaults (Some props))
  = match oget k props with
    | Some v => if defined v then Some v else oget k (spread defaults)
    | None => oget k (spread defaults)
    end.
Proof.
  induction props as [|[k' v] props IH] using rev_ind; intros Hwf; [done|].
  unfold wfObj, okeys in Hwf. rewrite fmap_app in Hwf.
  apply NoDup_app in Hwf as (Hwf & Hfresh & _).
  specialize (IH Hwf).
  assert (k' ∉ okeys props) as Hk'.
  { intros Hin. apply (Hfresh k' Hin). simpl. set_solver. }
  rewrite resolveProps_snoc, oget_app.
  assert (oget k [(k', v)] = if decide (k = k') then Some v else None)
    as -> by done.
  destruct (decide (k = k')) as [->|Hne].
  - apply oget_None in Hk'. rewrite Hk'. rewrite Hk' in IH.
    destruct (defined v); [|done].
    rewrite oget_oset. by destruct (decide (k' = k')).
  - assert (oget k (if defined v
                    then oset k' v (resolveProps defaults (Some props))
                    else resolveProps defaults (Some props))
            = oget k (resolveProps defaults (Some props))) as ->.
    { destruct (defined v); [|done].
      rewrite oget_oset. by destruct (decide (k = k')). }
    rewrite IH. by destruct (oget k props).
Qed.

Lemma X18_effective_selection_lookup_witness :
  oget "size"
    (resolveProps [("size", VStr "md"); ("disabled", VBool true)]
       (Some [("size", VUndefined); ("disabled", VBool false)]))
  = Some (VStr "md")
  ∧ oget "disabled"
      (resolveProps [("size", VStr "md"); ("disabled", VBool true)]
         (Some [("size", VUndefined); ("disabled", VBool false)]))
    = Some (VBool false).
Proof.
  split.
  - etrans.
    + apply (X18_effective_selection_lookup
               [("size", VStr "md"); ("disabled", VBool true)]
               [("size", VUndefined); ("disabled", VBool false)] "size").
      compute_done.
    + reflexivity.
  - reflexivity.
Defined.


(** ** More on the util expansion *)

Lemma oget_reverse_None {A} k (o : obj A) :
  k ∉ okeys o → oget k (reverse o) = None.
Proof.
  intros Hnin. apply oget_None. unfold okeys. rewrite fmap_reverse.
  by rewrite elem_of_reverse.
Qed.

(** X20. Expansion leaves a plain property alone: a key that names no util
    and that no util of the style produces has, in the expanded style, the
    value it has in the style, and is absent when the style does not have
    it. *)
Theorem X20_expandUtils_keeps_plain_properties (utils : UtilsConfig)
    (style : Styles) (k : string) :
  wfObj style →
  inUtils k utils = false →
  (∀ name v utilFn,
     (name, v) ∈ style → oget name utils = Some utilFn →
     k ∉ okeys (utilFn v)) →
  oget k (expandUtils (Some style) utils) = oget k style.
Proof.
  intros Hwf Hplain.
  induction style as [|[k' v] style IH] using rev_ind; intros Hfree; [done|].
  unfold wfObj, okeys in Hwf. rewrite fmap_app in Hwf.
  apply NoDup_app in Hwf as (Hwf & Hfresh & _).
  assert (k' ∉ okeys style) as Hk'.
  { intros Hin. apply (Hfresh k' Hin). simpl. set_solver. }
  assert (oget k (expandUtils (Some style) utils) = oget k style) as IH'.
  { apply IH; [done|]. intros name w utilFn Hin. apply Hfree. set_solver. }
  rewrite expandUtils_snoc, oget_app.
  assert (oget k [(k', v)] = if decide (k = k') then Some v else None)
    as -> by done.
  destruct (oget k' utils) as [utilFn|] eqn:Hutil.
  - rewrite oget_assign, oget_reverse_None, IH'.
    + destruct (decide (k = k')) as [->|_]; [|by destruct (oget k style)].
      unfold inUtils in Hplain. by rewrite Hutil in Hplain.
    + apply (Hfree k' v utilFn); [set_solver|done].
  - rewrite oget_oset, IH'.
    destruct (decide (k = k')) as [->|_]; [|by destruct (oget k style)].
    apply oget_None in Hk'. by rewrite Hk'.
Qed.

Lemma X20_expandUtils_keeps_plain_properties_witness :
  oget "margin"
    (expandUtils (Some [("margin", PNum 2); ("px", PNum 4)]) pxUtils)
  = Some (PNum 2).
Proof.
  etrans.
  - apply (X20_expandUtils_keeps_plain_properties pxUtils
             [("margin", PNum 2); ("px", PNum 4)] "margin").
    + compute_done.
    + reflexivity.
    + intros name v utilFn Hin Hutil.
      apply elem_of_cons in Hin as [Heq|Hin].
      * inversion Heq; subst. discriminate Hutil.
      * apply list_elem_of_singleton in Hin. inversion Hin; subst.
        inversion Hutil; subst. compute_done.
  - reflexivity.
Defined.

Lemma lastWritten_snoc utils k style entry :
  lastWritten utils k (style ++ [entry])
  = match writtenBy utils k entry with
    | Some v => Some v
    | None => lastWritten utils k style
    end.
Proof. unfold lastWritten. by rewrite fold_left_app. Qed.

Lemma lastWritten_app utils k style1 style2 :
  lastWritten utils k (style1 ++ style2)
  = match lastWritten utils k style2 with
    | Some v => Some v
    | None => lastWritten utils k style1
    end.
Proof.
  induction style2 as [|entry style2 IH] using rev_ind.
  - by rewrite app_nil_r.
  - rewrite (assoc_L (++)), !lastWritten_snoc, IH.
    by destruct (writtenBy utils k entry).
Qed.

Lemma lastWritten_none utils k style :
  Forall (λ entry, writtenBy utils k entry = None) style →
  lastWritten utils k style = None.
Proof.
  induction style as [|entry style IH] using rev_ind; [done|].
  intros [Hstyle Hentry]%Forall_app. rewrite lastWritten_snoc.
  apply Forall_inv in Hentry. simpl in Hentry. rewrite Hentry. by apply IH.
Qed.

Lemma oget_expandUtils utils style k :
  oget k (expandUtils (Some style) utils) = lastWritten utils k style.
Proof.
  induction style as [|[key value] style IH] using rev_ind; [done|].
  rewrite expandUtils_snoc, lastWritten_snoc. unfold writtenBy. cbn [fst snd].
  destruct (oget key utils) as [utilFn|].
  - by rewrite oget_assign, IH.
  - rewrite oget_oset, IH. by destruct (decide (k = key)).
Qed.

(** X21. In an expanded style a key holds what the last entry of the style
    that writes it wrote, be it a plain property of that name or a util
    whose result has the key. So where a util and a plain property of the
    style write the same key, the position in the style decides, whatever
    stands before and between them, as long as nothing after them writes the
    key: written after the util the plain property wins, written before it
    the util's value wins. *)
Theorem X21_expandUtils_later_entry_wins (utils : UtilsConfig)
    (before between after : Styles) (name : string)
    (utilFn : prim → Styles) (v x y : prim) (k : string) :
  oget name utils = Some utilFn →
  inUtils k utils = false →
  wfObj (utilFn v) →
  oget k (utilFn v) = Some y →
  Forall (λ entry, writtenBy utils k entry = None) after →
  (∀ style,
     oget k (expandUtils (Some style) utils) = lastWritten utils k style)
  ∧ oget k
      (expandUtils
         (Some (before ++ [(name, v)] ++ between ++ [(k, x)] ++ after)) utils)
    = Some x
  ∧ oget k
      (expandUtils
         (Some (before ++ [(k, x)] ++ between ++ [(name, v)] ++ after)) utils)
    = Some y.
Proof.
  intros Hutil Hplain Hwf Hy Hafter.
  assert (oget k utils = None) as Hk.
  { unfold inUtils in Hplain. by destruct (oget k utils). }
  assert (lastWritten utils k [(k, x)] = Some x) as Hx.
  { unfold lastWritten, writtenBy. simpl. rewrite Hk.
    by destruct (decide (k = k)). }
  assert (lastWritten utils k [(name, v)] = Some y) as Hname.
  { unfold lastWritten, writtenBy. simpl.
    by rewrite Hutil, oget_reverse_NoDup, Hy. }
  split_and!.
  - intros style. apply oget_expandUtils.
  - rewrite oget_expandUtils, !lastWritten_app, Hx.
    by rewrite (lastWritten_none utils k after).
  - rewrite oget_expandUtils, !lastWritten_app, Hname.
    by rewrite (lastWritten_none utils k after).
Qed.

Lemma X21_expandUtils_later_entry_wins_witness :
  oget "paddingLeft"
    (expandUtils
       (Some [("margin", PNum 1); ("px", PNum 4); ("flex", PNum 1);
              ("paddingLeft", PNum 8); ("opacity", PNum 0)]) pxUtils)
  = Some (PNum 8)
  ∧ oget "paddingLeft"
      (expandUtils
         (Some [("margin", PNum 1); ("paddingLeft", PNum 8); ("flex", PNum 1);
                ("px", PNum 4); ("opacity", PNum 0)]) pxUtils)
    = Some (PNum 4).
Proof.
  destruct (X21_expandUtils_later_entry_wins pxUtils
              [("margin", PNum 1)] [("flex", PNum 1)] [("opacity", PNum 0)]
              "px" (λ v, [("paddingLeft", v); ("paddingRight", v)])
              (PNum 4) (PNum 8) (PNum 4) "paddingLeft")
    as (_ & Hafter & Hbefore).
  - reflexivity.
  - reflexivity.
  - compute_done.
  - reflexivity.
  - repeat constructor.
  - by split.
Defined.
